(** * Verification of chess_compression (move and position codecs)

    Shallow embedding of [src/lib.rs] (move codec, move ordering, Huffman
    trie) and [src/position.rs] (position codec).  Rust panics (arithmetic
    overflow in debug builds, [unwrap] on [None], out-of-bounds indexing,
    [unreachable!]) are modelled by the [Panic] outcome. *)

From Stdlib Require Import ZArith Lia List Bool Arith Sorting.Sorted
  Sorting.Permutation Eqdep_dec.
Import ListNotations.
Open Scope Z_scope.

(** ** Outcomes of a Rust call: [Ok], [Err] or a panic. *)

(** The unified error type.  [IO], [Chess] and [MoveNotFound] are declared
    in [lib.rs]; [MissingBytes], [SquareOffsetError] and [Leb128] are the
    variants [position.rs] uses through [crate::Error]. *)
Inductive Error : Type :=
| IO
| Chess
| MoveNotFound
| MissingBytes
| SquareOffsetError (sq : Z) (offset : Z)
| Leb128.

Inductive outcome (A : Type) : Type :=
| Ok (a : A)
| Err (e : Error)
| Panic.
Arguments Ok {A} a.
Arguments Err {A} e.
Arguments Panic {A}.

Definition bind {A B} (x : outcome A) (f : A -> outcome B) : outcome B :=
  match x with
  | Ok a => f a
  | Err e => Err e
  | Panic => Panic
  end.

Notation "x <- a ;; b" := (bind a (fun x => b))
  (at level 61, a at next level, right associativity).

(** Checked [u32] / [i32] arithmetic (debug-build semantics). *)
Definition u32_checked (z : Z) : outcome Z :=
  if (0 <=? z) && (z <? 2 ^ 32) then Ok z else Panic.
Definition i32_checked (z : Z) : outcome Z :=
  if (- 2 ^ 31 <=? z) && (z <? 2 ^ 31) then Ok z else Panic.
(** [<<] on [i32] does not check for lost bits: it wraps. *)
Definition i32_wrap (z : Z) : Z :=
  let m := z mod 2 ^ 32 in if m <? 2 ^ 31 then m else m - 2 ^ 32.
Definition i32_shl (x : Z) (n : Z) : Z := i32_wrap (Z.shiftl x n).

(** ** Chess vocabulary (shakmaty's types) *)

Inductive Color := White | Black.
Definition color_not (c : Color) : Color :=
  match c with White => Black | Black => White end.

Inductive Role := Pawn | Knight | Bishop | Rook | Queen | King.
(** [i32::from(role)] / [usize::from(role)]: Pawn = 1 .. King = 6. *)
Definition role_to_int (r : Role) : Z :=
  match r with
  | Pawn => 1 | Knight => 2 | Bishop => 3 | Rook => 4 | Queen => 5 | King => 6
  end.

Record Piece := mkPiece { piece_color : Color; piece_role : Role }.

(** A square 0..63 (file + 8 * rank), as shakmaty's [Square] enum. *)
Record Square := mkSquare { sq_index : nat; sq_bound : Nat.ltb sq_index 64 = true }.

Definition sq_z (s : Square) : Z := Z.of_nat (sq_index s).

Definition Square_eq_dec (a b : Square) : {a = b} + {a <> b}.
Proof.
  destruct a as [i Hi], b as [j Hj].
  destruct (Nat.eq_dec i j) as [E|E].
  - left; subst j; f_equal; apply UIP_dec, bool_dec.
  - right; intros H; apply E; injection H; auto.
Defined.

(** [Square::offset]: [Some] iff the shifted index stays in 0..63. *)
Definition square_of_Z (z : Z) : option Square :=
  if 0 <=? z then
    match bool_dec (Nat.ltb (Z.to_nat z) 64) true with
    | left H => Some (mkSquare (Z.to_nat z) H)
    | right _ => None
    end
  else None.
Definition sq_offset (s : Square) (delta : Z) : option Square :=
  square_of_Z (sq_z s + delta).

(** [Square::flip_vertical]: [sq ^ 56]. *)
Definition flip_vertical (s : Square) : Z := Z.lxor (sq_z s) 56.

Definition sq_file (s : Square) : Z := sq_z s mod 8.
Definition sq_rank (s : Square) : Z := sq_z s / 8.

(** Bitboards are [u64] values as [Z]. *)
Definition bb_of (s : Square) : Z := Z.shiftl 1 (sq_z s).
Definition bb_contains (bb : Z) (s : Square) : bool := Z.testbit bb (sq_z s).

(** [shakmaty::attacks::pawn_attacks(color, sq)]: the squares a pawn of
    [color] standing on [sq] attacks (shakmaty's precomputed table). *)
Definition pawn_attacks (c : Color) (s : Square) : Z :=
  let f := sq_file s in let r := sq_rank s in let i := sq_z s in
  match c with
  | White =>
      Z.lor (if (f <? 7) && (r <? 7) then Z.shiftl 1 (i + 9) else 0)
            (if (0 <? f) && (r <? 7) then Z.shiftl 1 (i + 7) else 0)
  | Black =>
      Z.lor (if (f <? 7) && (0 <? r) then Z.shiftl 1 (i - 7) else 0)
            (if (0 <? f) && (0 <? r) then Z.shiftl 1 (i - 9) else 0)
  end.

(** shakmaty's [Move]. *)
Inductive Move :=
| Normal (role : Role) (from : Square) (capture : option Role) (to : Square)
         (promotion : option Role)
| EnPassant (from : Square) (to : Square)
| Castle (king : Square) (rook : Square)
| Put (role : Role) (to : Square).

Definition move_role (m : Move) : Role :=
  match m with
  | Normal r _ _ _ _ => r | EnPassant _ _ => Pawn | Castle _ _ => King
  | Put r _ => r
  end.
Definition move_from (m : Move) : option Square :=
  match m with
  | Normal _ f _ _ _ => Some f | EnPassant f _ => Some f | Castle k _ => Some k
  | Put _ _ => None
  end.
Definition move_to (m : Move) : Square :=
  match m with
  | Normal _ _ _ t _ => t | EnPassant _ t => t | Castle _ r => r | Put _ t => t
  end.
Definition move_promotion (m : Move) : option Role :=
  match m with Normal _ _ _ _ p => p | _ => None end.
Definition move_is_capture (m : Move) : bool :=
  match m with
  | Normal _ _ c _ _ => match c with Some _ => true | None => false end
  | EnPassant _ _ => true
  | _ => false
  end.

Definition Role_eq_dec (a b : Role) : {a = b} + {a <> b}.
Proof. decide equality. Defined.

Definition Move_eq_dec (a b : Move) : {a = b} + {a <> b}.
Proof.
  pose proof Role_eq_dec; pose proof Square_eq_dec.
  assert (forall x y : option Role, {x = y} + {x <> y}) by (decide equality).
  decide equality.
Defined.

(** ** Huffman code book and trie ([CODES], [Node], [build_tree], [read]) *)

(** [CODES]: (code, bit length) of symbols 0..255, the table's bit
    patterns written in decimal. *)
Definition CODES : list (Z * Z) := [
  (0, 2); (4, 3); (13, 4); (10, 4);
  (5, 4); (29, 5); (23, 5); (14, 5);
  (12, 5); (8, 5); (61, 6); (57, 6);
  (60, 6); (51, 6); (50, 6); (48, 6);
  (45, 6); (44, 6); (31, 6); (27, 6);
  (19, 6); (26, 6); (127, 7); (125, 7);
  (126, 7); (124, 7); (112, 7); (99, 7);
  (61, 7); (37, 7); (36, 7); (226, 8);
  (197, 8); (121, 8); (455, 9); (393, 9);
  (241, 9); (240, 9); (908, 10); (784, 10);
  (1818, 11); (1570, 11); (3638, 12); (3142, 12);
  (7278, 13); (6286, 13); (14558, 14); (12574, 14);
  (29118, 15); (25150, 15); (58238, 16); (50302, 16);
  (100607, 17); (232959, 18); (232957, 18); (201212, 18);
  (465916, 19); (402427, 19); (931835, 20); (931826, 20);
  (931824, 20); (1863669, 21); (1863654, 21); (1863650, 21);
  (1609705, 21); (1609704, 21); (3727336, 22); (3727302, 22);
  (3219415, 22); (3219413, 22); (7454675, 23); (7454622, 23);
  (7454606, 23); (7454607, 23); (6438828, 23); (14909243, 24);
  (14909348, 24); (14909247, 24); (14909242, 24); (12877659, 24);
  (12877651, 24); (12877649, 24); (29818483, 25); (29818481, 25);
  (29818482, 25); (25755301, 25); (25755316, 25); (25755297, 25);
  (59636987, 26); (59636985, 26); (59636986, 26); (59636984, 26);
  (51510635, 26); (119274799, 27); (103021268, 27); (103021269, 27);
  (119273922, 27); (119273923, 27); (103021203, 27); (238549587, 28);
  (206042405, 28); (238547843, 28); (238547842, 28); (238547840, 28);
  (477095682, 29); (412084745, 29); (477095683, 29); (412084744, 29);
  (412084739, 29); (824169502, 30); (954198374, 30); (954198359, 30);
  (824169485, 30); (954198370, 30); (824169480, 30); (824169477, 30);
  (824169472, 30); (824169482, 30); (824169613, 30); (824169619, 30);
  (824169618, 30); (824169617, 30); (824169616, 30); (824169611, 30);
  (824169610, 30); (824169609, 30); (824169608, 30); (824169607, 30);
  (824169606, 30); (824169603, 30); (824169602, 30); (824169499, 30);
  (824169498, 30); (824169497, 30); (824169496, 30); (824169493, 30);
  (824169492, 30); (824169605, 30); (824169604, 30); (824169503, 30);
  (824169501, 30); (824169500, 30); (824169601, 30); (824169600, 30);
  (824169487, 30); (824169486, 30); (824169484, 30); (824169495, 30);
  (824169494, 30); (824169481, 30); (824169476, 30); (824169475, 30);
  (824169474, 30); (824169473, 30); (824169483, 30); (824169615, 30);
  (824169614, 30); (824169612, 30); (1908396733, 31); (1908396735, 31);
  (1908396706, 31); (1908396767, 31); (1908396708, 31); (1908396729, 31);
  (1908396762, 31); (1908396754, 31); (1908396752, 31); (1908396730, 31);
  (1908396683, 31); (1908396682, 31); (1908396681, 31); (1908396680, 31);
  (1908396679, 31); (1908396678, 31); (1908396677, 31); (1908396676, 31);
  (1908396759, 31); (1908396758, 31); (1908396757, 31); (1908396756, 31);
  (1908396727, 31); (1908396726, 31); (1908396693, 31); (1908396692, 31);
  (1908396725, 31); (1908396724, 31); (1908396695, 31); (1908396694, 31);
  (1908396721, 31); (1908396720, 31); (1908396691, 31); (1908396690, 31);
  (1908396781, 31); (1908396780, 31); (1908396779, 31); (1908396778, 31);
  (1908396775, 31); (1908396774, 31); (1908396689, 31); (1908396688, 31);
  (1908396771, 31); (1908396770, 31); (1908396769, 31); (1908396768, 31);
  (1908396777, 31); (1908396776, 31); (1908396687, 31); (1908396686, 31);
  (1908396675, 31); (1908396674, 31); (1908396685, 31); (1908396684, 31);
  (1908396751, 31); (1908396750, 31); (1908396673, 31); (1908396672, 31);
  (1908396761, 31); (1908396760, 31); (1908396773, 31); (1908396772, 31);
  (1908396717, 31); (1908396716, 31); (1908396723, 31); (1908396722, 31);
  (1908396713, 31); (1908396712, 31); (1908396783, 31); (1908396782, 31);
  (1908396747, 31); (1908396746, 31); (1908396739, 31); (1908396738, 31);
  (1908396715, 31); (1908396714, 31); (1908396745, 31); (1908396744, 31);
  (1908396743, 31); (1908396742, 31); (1908396737, 31); (1908396736, 31);
  (1908396732, 31); (1908396711, 31); (1908396710, 31); (1908396734, 31);
  (1908396707, 31); (1908396705, 31); (1908396704, 31); (1908396766, 31);
  (1908396709, 31); (1908396765, 31); (1908396764, 31); (1908396728, 31);
  (1908396763, 31); (1908396753, 31); (1908396755, 31); (1908396731, 31) ].

Inductive Node :=
| Interior (zero : Node) (one : Node)
| Leaf (n : Z).

(** The loop [for i in 0..=255] of [build_tree]: first index whose entry
    equals [(code, bits)]. *)
Fixpoint find_code (i : Z) (tbl : list (Z * Z)) (code bits : Z) : option Z :=
  match tbl with
  | [] => None
  | (c, l) :: tbl' =>
      if (c =? code) && (l =? bits) then Some i else find_code (i + 1) tbl' code bits
  end.

(** [code << 1] on [u32] drops the bit shifted out. *)
Definition u32_shl1 (code : Z) : Z := Z.land (Z.shiftl code 1) (2 ^ 32 - 1).

(** [build_tree]; [n] is [255 - bits], the number of increments [bits + 1]
    on the [u8] before it overflows (and panics). *)
Fixpoint build_tree_n (n : nat) (code bits : Z) : outcome Node :=
  match find_code 0 CODES code bits with
  | Some i => Ok (Leaf i)
  | None =>
      match n with
      | O => Panic
      | S n' =>
          zero <- build_tree_n n' (u32_shl1 code) (bits + 1);;
          one <- build_tree_n n' (Z.lor (u32_shl1 code) 1) (bits + 1);;
          Ok (Interior zero one)
      end
  end.

Definition build_tree (code bits : Z) : outcome Node :=
  build_tree_n (Z.to_nat (255 - bits)) code bits.

(** The lazily initialised [ROOT]. *)
Definition ROOT : outcome Node := build_tree 0 0.

(** The descent loop of [read]; the reader is the list of its unread bits,
    [read_bit] fails with [IO] when it is exhausted. *)
Fixpoint walk (t : Node) (reader : list bool) : outcome (Z * list bool) :=
  match t with
  | Leaf n => Ok (n, reader)
  | Interior zero one =>
      match reader with
      | [] => Err IO
      | b :: reader' => walk (if b then one else zero) reader'
      end
  end.

Definition read (reader : list bool) : outcome (Z * list bool) :=
  root <- ROOT;; walk root reader.

(** [writer.write_bits(code, n)]: the [n] low bits of [code], most
    significant first. *)
Fixpoint bits_msb (code : Z) (n : nat) : list bool :=
  match n with
  | O => []
  | S n' => Z.testbit code (Z.of_nat n') :: bits_msb code n'
  end.

Definition code_bits (value : Z) : list bool :=
  let '(c, l) := nth (Z.to_nat value) CODES (0, 0) in bits_msb c (Z.to_nat l).

(** [write(value, writer)]; the writer is the list of bits written so far
    (its sink, a [Vec<u8>], never fails). *)
Definition write (value : Z) (writer : list bool) : outcome (list bool) :=
  Ok (writer ++ code_bits value).

(** Bytes ([u8] as [Z]), MSB-first bit order of [bitbit]. *)
Definition byte_of_bits (bs : list bool) : Z :=
  fold_left (fun acc (b : bool) => 2 * acc + (if b then 1 else 0)) bs 0.
Definition bits_of_byte (z : Z) : list bool := bits_msb z 8.
Definition bits_of_bytes (bytes : list Z) : list bool := flat_map bits_of_byte bytes.

(** [pad_to_byte]: zero bits up to the next byte boundary. *)
Definition pad_to_byte (bs : list bool) : list bool :=
  bs ++ repeat false ((8 - length bs mod 8) mod 8).

Fixpoint bytes_of_bits_n (n : nat) (bs : list bool) : list Z :=
  match n with
  | O => []
  | S n' => byte_of_bits (firstn 8 bs) :: bytes_of_bits_n n' (skipn 8 bs)
  end.

(** The bytes in the output [Vec] once the writer is padded. *)
Definition writer_output (bs : list bool) : list Z :=
  let p := pad_to_byte bs in bytes_of_bits_n (length p / 8) p.

(** Depth of a trie and the (path, symbol) pairs of its leaves. *)
Fixpoint tree_depth (t : Node) : nat :=
  match t with
  | Leaf _ => O
  | Interior z o => S (Nat.max (tree_depth z) (tree_depth o))
  end.

Fixpoint leaves (t : Node) : list (list bool * Z) :=
  match t with
  | Leaf n => [([], n)]
  | Interior z o =>
      map (fun '(p, n) => (false :: p, n)) (leaves z)
      ++ map (fun '(p, n) => (true :: p, n)) (leaves o)
  end.

(** The trie [build_tree(0, 0)] evaluates to. *)
Definition root_tree : Node :=
  Eval vm_compute in match ROOT with Ok t => t | _ => Leaf 0 end.

(** ** Move ordering ([PSQT], [move_value], [move_score], [sorted_moves]) *)

Definition PSQT : list (list Z) := [
    [
     0; 0; 0; 0; 0; 0; 0; 0;
     50; 50; 50; 50; 50; 50; 50; 50;
     10; 10; 20; 30; 30; 20; 10; 10;
     5; 5; 10; 25; 25; 10; 5; 5;
     0; 0; 0; 20; 21; 0; 0; 0;
     5; -5; -10; 0; 0; -10; -5; 5;
     5; 10; 10; -31; -31; 10; 10; 5;
     0; 0; 0; 0; 0; 0; 0; 0 ];
    [
     -50; -40; -30; -30; -30; -30; -40; -50;
     -40; -20; 0; 0; 0; 0; -20; -40;
     -30; 0; 10; 15; 15; 10; 0; -30;
     -30; 5; 15; 20; 20; 15; 5; -30;
     -30; 0; 15; 20; 20; 15; 0; -30;
     -30; 5; 10; 15; 15; 11; 5; -30;
     -40; -20; 0; 5; 5; 0; -20; -40;
     -50; -40; -30; -30; -30; -30; -40; -50 ];
    [
     -20; -10; -10; -10; -10; -10; -10; -20;
     -10; 0; 0; 0; 0; 0; 0; -10;
     -10; 0; 5; 10; 10; 5; 0; -10;
     -10; 5; 5; 10; 10; 5; 5; -10;
     -10; 0; 10; 10; 10; 10; 0; -10;
     -10; 10; 10; 10; 10; 10; 10; -10;
     -10; 5; 0; 0; 0; 0; 5; -10;
     -20; -10; -10; -10; -10; -10; -10; -20 ];
    [
     0; 0; 0; 0; 0; 0; 0; 0;
     5; 10; 10; 10; 10; 10; 10; 5;
     -5; 0; 0; 0; 0; 0; 0; -5;
     -5; 0; 0; 0; 0; 0; 0; -5;
     -5; 0; 0; 0; 0; 0; 0; -5;
     -5; 0; 0; 0; 0; 0; 0; -5;
     -5; 0; 0; 0; 0; 0; 0; -5;
     0; 0; 0; 5; 5; 0; 0; 0 ];
    [
     -20; -10; -10; -5; -5; -10; -10; -20;
     -10; 0; 0; 0; 0; 0; 0; -10;
     -10; 0; 5; 5; 5; 5; 0; -10;
     -5; 0; 5; 5; 5; 5; 0; -5;
     0; 0; 5; 5; 5; 5; 0; -5;
     -10; 5; 5; 5; 5; 5; 0; -10;
     -10; 0; 5; 0; 0; 0; 0; -10;
     -20; -10; -10; -5; -5; -10; -10; -20 ];
    [
     -30; -40; -40; -50; -50; -40; -40; -30;
     -30; -40; -40; -50; -50; -40; -40; -30;
     -30; -40; -40; -50; -50; -40; -40; -30;
     -30; -40; -40; -50; -50; -40; -40; -30;
     -20; -30; -30; -40; -40; -30; -30; -20;
     -10; -20; -20; -20; -20; -20; -20; -10;
     20; 20; 0; 0; 0; 0; 20; 20;
     0; 30; 10; 0; 0; 10; 30; 0 ] ].

Definition psqt (role_idx idx : Z) : Z :=
  nth (Z.to_nat idx) (nth (Z.to_nat role_idx) PSQT []) 0.

Definition unwrap {A} (o : option A) : outcome A :=
  match o with Some a => Ok a | None => Panic end.

(** Stable sort by key ([sorted_by_key] collects and calls the stable
    [sort_by_key]); insertion keeps equal keys in input order. *)
Fixpoint insert_by_key {A} (x : A * Z) (l : list (A * Z)) : list (A * Z) :=
  match l with
  | [] => [x]
  | y :: l' => if snd x <=? snd y then x :: y :: l' else y :: insert_by_key x l'
  end.
Fixpoint sort_by_key {A} (l : list (A * Z)) : list (A * Z) :=
  match l with
  | [] => []
  | x :: l' => insert_by_key x (sort_by_key l')
  end.

Fixpoint map_outcome {A B} (f : A -> outcome B) (l : list A) : outcome (list B) :=
  match l with
  | [] => Ok []
  | x :: l' => y <- f x;; ys <- map_outcome f l';; Ok (y :: ys)
  end.

(** [Iterator::position]. *)
Fixpoint position_of (m : Move) (l : list Move) : option nat :=
  match l with
  | [] => None
  | x :: l' =>
      if Move_eq_dec x m then Some O
      else match position_of m l' with Some i => Some (S i) | None => None end
  end.

(** The rules oracle (shakmaty's [Chess]) the codec calls. *)
Section Oracle.
Variable Pos : Type.
Variable turn : Pos -> Color.
(** [position.their(Role::Pawn)]: the opponent's pawn bitboard. *)
Variable their_pawns : Pos -> Z.
Variable legal_moves : Pos -> list Move.
(** [position.play(m)]; [None] is a [PlayError]. *)
Variable play : Pos -> Move -> option Pos.

Definition move_value (position : Pos) (m : Move) : outcome Z :=
  let role_idx := role_to_int (move_role m) - 1 in
  let flip := match turn position with White => true | Black => false end in
  let to := move_to m in
  from <- unwrap (move_from m);;
  let '(to_idx, from_idx) :=
    if flip then (flip_vertical to, flip_vertical from) else (sq_z to, sq_z from) in
  i32_checked (psqt role_idx to_idx - psqt role_idx from_idx).

Definition defending_pawns (m : Move) (position : Pos) : Z :=
  Z.land (pawn_attacks (turn position) (move_to m)) (their_pawns position).

Definition move_score (m : Move) (position : Pos) : outcome Z :=
  let dp := defending_pawns m position in
  defending_pawn_score <-
    (if dp =? 0 then Ok 6 else i32_checked (6 - role_to_int (move_role m)));;
  mv <- move_value position m;;
  t1 <- (match move_promotion m with
         | Some promoted => p <- i32_checked (role_to_int promoted - 1);; Ok (i32_shl p 26)
         | None => Ok 0
         end);;
  let t2 := if move_is_capture m then i32_shl 1 25 else 0 in
  let t3 := i32_shl defending_pawn_score 22 in
  v <- i32_checked (512 + mv);;
  let t4 := i32_shl v 12 in
  let t5 := i32_shl (sq_z (move_to m)) 6 in
  from <- unwrap (move_from m);;
  s1 <- i32_checked (t1 + t2);;
  s2 <- i32_checked (s1 + t3);;
  s3 <- i32_checked (s2 + t4);;
  s4 <- i32_checked (s3 + t5);;
  score <- i32_checked (s4 + sq_z from);;
  i32_checked (- score).

Definition sorted_moves (position : Pos) : outcome (list Move) :=
  keyed <- map_outcome (fun m => k <- move_score m position;; Ok (m, k))
                       (legal_moves position);;
  Ok (map fst (sort_by_key keyed)).

(** ** Move codec *)

Definition write_move (m : Move) (position : Pos) (writer : list bool)
  : outcome (list bool) :=
  moves <- sorted_moves position;;
  match position_of m moves with
  | Some idx => write (Z.of_nat idx mod 256) writer   (* [idx as u8] *)
  | None => Err MoveNotFound
  end.

Definition read_move (reader : list bool) (position : Pos)
  : outcome (Move * list bool) :=
  r <- read reader;;
  let '(idx, reader') := r in
  moves <- sorted_moves position;;
  match nth_error moves (Z.to_nat idx) with
  | Some m => Ok (m, reader')
  | None => Panic   (* [moves[idx as usize]] out of bounds *)
  end.

Definition play_res (position : Pos) (m : Move) : outcome Pos :=
  match play position m with Some p => Ok p | None => Err Chess end.

Fixpoint compress_loop (moves : list Move) (position : Pos) (writer : list bool)
  : outcome (list bool) :=
  match moves with
  | [] => Ok writer
  | m :: moves' =>
      writer' <- write_move m position writer;;
      position' <- play_res position m;;
      compress_loop moves' position' writer'
  end.

Definition compress_from_position (moves : list Move) (position : Pos)
  : outcome (list Z) :=
  writer <- compress_loop moves position [];;
  Ok (writer_output writer).

Fixpoint decompress_loop (n : nat) (reader : list bool) (position : Pos)
  (moves : list Move) : outcome (list Move) :=
  match n with
  | O => Ok moves
  | S n' =>
      r <- read_move reader position;;
      let '(m, reader') := r in
      position' <- play_res position m;;
      decompress_loop n' reader' position' (moves ++ [m])
  end.

(** [for _i in 0..plies]: no iteration when [plies <= 0]. *)
Definition decompress_from_position (input : list Z) (plies : Z) (position : Pos)
  : outcome (list Move) :=
  decompress_loop (Z.to_nat plies) (bits_of_bytes input) position [].

End Oracle.

(** ** Position codec ([position.rs]) *)

(** The 64 squares in ascending order. *)
Definition all_squares : list Square :=
  flat_map (fun i => match square_of_Z (Z.of_nat i) with Some s => [s] | None => [] end)
           (seq 0 64).

(** shakmaty's [Board], as the map from squares to pieces it stands for:
    entry [i] is the piece on square [i]. *)
Definition Board := list (option Piece).

Definition piece_at (b : Board) (s : Square) : option Piece := nth (sq_index s) b None.

(** [board.occupied()]. *)
Definition occupied (b : Board) : Z :=
  fold_right (fun s acc => match piece_at b s with
                           | Some _ => Z.lor (bb_of s) acc
                           | None => acc
                           end) 0 all_squares.

(** [board.into_iter()]: occupied squares with their pieces, ascending. *)
Definition board_iter (b : Board) : list (Square * Piece) :=
  flat_map (fun s => match piece_at b s with Some p => [(s, p)] | None => [] end)
           all_squares.

Definition Color_beq (a b : Color) : bool :=
  match a, b with White, White | Black, Black => true | _, _ => false end.
Definition Role_beq (a b : Role) : bool :=
  if Role_eq_dec a b then true else false.

(** [board.kings() & board.by_color(color)], as a list of squares. *)
Definition kings_of (b : Board) (c : Color) : list Square :=
  filter (fun s => match piece_at b s with
                   | Some p => Color_beq (piece_color p) c && Role_beq (piece_role p) King
                   | None => false
                   end) all_squares.

(** [board.king_of(color)]: shakmaty takes [single_square] of the kings of
    that colour, the square when there is exactly one, [None] otherwise. *)
Definition king_of (b : Board) (c : Color) : option Square :=
  match kings_of b c with
  | [s] => Some s
  | _ => None
  end.

Fixpoint list_set {A} (l : list A) (i : nat) (x : A) : list A :=
  match l, i with
  | [], _ => []
  | _ :: l', O => x :: l'
  | y :: l', S i' => y :: list_set l' i' x
  end.

(** [board.set_piece_at(sq, piece)]. *)
Definition set_piece_at (b : Board) (s : Square) (p : Piece) : Board :=
  list_set b (sq_index s) (Some p).

(** shakmaty's [Setup], restricted to the fields a [Chess] position uses. *)
Record Setup := mkSetup {
  board : Board;
  turn : Color;
  castling_rights : Z;
  ep_square : option Square;
  halfmoves : Z;
  fullmoves : Z
}.

Definition Setup_empty : Setup :=
  mkSetup (repeat None 64) White 0 None 0 1.

(** [piece_value]. *)
Definition piece_value (piece : Piece) (square : Square) (black_turn : bool)
  (unmoved_rooks pawn_pushed_to : Z) : Z :=
  match piece_role piece, piece_color piece with
  | Pawn, _ => if bb_contains pawn_pushed_to square then 12
               else match piece_color piece with White => 0 | Black => 1 end
  | Knight, White => 2
  | Knight, Black => 3
  | Bishop, White => 4
  | Bishop, Black => 5
  | Rook, White => if bb_contains unmoved_rooks square then 13 else 6
  | Rook, Black => if bb_contains unmoved_rooks square then 14 else 7
  | Queen, White => 8
  | Queen, Black => 9
  | King, White => 10
  | King, Black => if black_turn then 15 else 11
  end.

(** [u64::to_be_bytes]. *)
Definition to_be_bytes (v : Z) : list Z :=
  map (fun k => Z.land (Z.shiftr v (8 * Z.of_nat k)) 255) (rev (seq 0 8)).

(** [u64::from_be_bytes]. *)
Definition from_be_bytes (bytes : list Z) : Z :=
  fold_left (fun acc byte => acc * 256 + byte) bytes 0.

(** [leb128::write::unsigned] on a [u64]; a [u64] needs at most ten
    groups of seven bits, [fuel] bounds the loop by that. *)
Fixpoint leb128_write_n (fuel : nat) (val : Z) : list Z :=
  match fuel with
  | O => []
  | S fuel' =>
      let byte := Z.land val 127 in
      let val' := Z.shiftr val 7 in
      if val' =? 0 then [byte] else Z.lor byte 128 :: leb128_write_n fuel' val'
  end.
Definition leb128_write (val : Z) : list Z := leb128_write_n 10 val.

(** [leb128::read::unsigned]: end of input and overflow are errors. *)
Fixpoint leb128_read_n (fuel : nat) (shift result : Z) (bytes : list Z)
  : outcome (Z * list Z) :=
  match fuel, bytes with
  | O, _ => Err Leb128
  | _, [] => Err Leb128
  | S fuel', byte :: bytes' =>
      if (shift =? 63) && negb (byte =? 0) && negb (byte =? 1) then Err Leb128
      else
        let result' := Z.lor result (Z.shiftl (Z.land byte 127) shift) in
        if Z.land byte 128 =? 0 then Ok (result', bytes')
        else leb128_read_n fuel' (shift + 7) result' bytes'
  end.
Definition leb128_read (bytes : list Z) : outcome (Z * list Z) :=
  leb128_read_n 10 0 0 bytes.

(** The [while let] loop: piece nibbles two by two, low nibble first. *)
Fixpoint pack_nibbles (value : Square * Piece -> Z) (l : list (Square * Piece)) : list Z :=
  match l with
  | [] => []
  | [x] => [value x]
  | x :: y :: l' => Z.lor (Z.shiftl (value y) 4) (value x) :: pack_nibbles value l'
  end.

Definition pushed_to_bb (position : Setup) : outcome Z :=
  match ep_square position with
  | None => Ok 0
  | Some sq =>
      let offset := match turn position with Black => 8 | White => -8 end in
      match sq_offset sq offset with
      | Some s => Ok (bb_of s)
      | None => Err (SquareOffsetError (sq_z sq) offset)
      end
  end.

(** Occupancy and piece nibbles: the bytes before the clocks. *)
Definition compress_board (position : Setup) : outcome (list Z) :=
  let b := board position in
  pawn_pushed_to <- pushed_to_bb position;;
  let black_turn := Color_beq (turn position) Black in
  Ok (to_be_bytes (occupied b)
      ++ pack_nibbles (fun '(sq, piece) =>
                         piece_value piece sq black_turn (castling_rights position)
                           pawn_pushed_to)
                      (board_iter b)).

(** [compress]. *)
Definition compress (position : Setup) : outcome (list Z) :=
  result <- compress_board position;;
  f1 <- u32_checked (fullmoves position - 1);;
  f2 <- u32_checked (f1 * 2);;
  ply <- u32_checked (f2 + match turn position with Black => 1 | White => 0 end);;
  let hm := halfmoves position in
  let broken_turn :=
    Color_beq (turn position) Black
    && match king_of (board position) Black with None => true | Some _ => false end in
  Ok (result
      ++ (if (0 <? hm) || (1 <? ply) || broken_turn then leb128_write hm else [])
      ++ (if (1 <? ply) || broken_turn then leb128_write ply else [])).

(** [Bitboard::SOUTH]: ranks 1 to 4. *)
Definition SOUTH : Z := 2 ^ 32 - 1.

(** [piece_from_value]; [unreachable!()] for values above 15. *)
Definition piece_from_value (value : Z) (square : Square) : outcome Piece :=
  if value =? 0 then Ok (mkPiece White Pawn)
  else if value =? 1 then Ok (mkPiece Black Pawn)
  else if value =? 2 then Ok (mkPiece White Knight)
  else if value =? 3 then Ok (mkPiece Black Knight)
  else if value =? 4 then Ok (mkPiece White Bishop)
  else if value =? 5 then Ok (mkPiece Black Bishop)
  else if (value =? 6) || (value =? 13) then Ok (mkPiece White Rook)
  else if (value =? 7) || (value =? 14) then Ok (mkPiece Black Rook)
  else if value =? 8 then Ok (mkPiece White Queen)
  else if value =? 9 then Ok (mkPiece Black Queen)
  else if value =? 10 then Ok (mkPiece White King)
  else if (value =? 11) || (value =? 15) then Ok (mkPiece Black King)
  else if value =? 12 then
    Ok (mkPiece (if bb_contains SOUTH square then White else Black) Pawn)
  else Panic.

(** State of the decoding loop: setup, index [i], current [byte],
    [read_more]. *)
Record DecState := mkDecState {
  ds_setup : Setup; ds_i : nat; ds_byte : Z; ds_read_more : bool }.

Definition decode_square (bytes : list Z) (st : DecState) (square : Square)
  : outcome DecState :=
  let '(mkDecState setup i byte read_more) := st in
  r <- (if read_more then
          match nth_error bytes i with
          | Some byte' => Ok (byte', S i, Z.land byte' 15)
          | None => Err MissingBytes
          end
        else Ok (byte, i, Z.shiftr (Z.land byte 240) 4));;
  let '(byte', i', value) := r in
  piece <- piece_from_value value square;;
  let setup1 := mkSetup (set_piece_at (board setup) square piece) (turn setup)
                  (castling_rights setup) (ep_square setup) (halfmoves setup)
                  (fullmoves setup) in
  setup2 <-
    (if value =? 12 then
       let offset := if bb_contains SOUTH square then -8 else 8 in
       match sq_offset square offset with
       | Some e => Ok (mkSetup (board setup1) (turn setup1) (castling_rights setup1)
                         (Some e) (halfmoves setup1) (fullmoves setup1))
       | None => Err (SquareOffsetError (sq_z square) offset)
       end
     else if (value =? 13) || (value =? 14) then
       Ok (mkSetup (board setup1) (turn setup1)
             (Z.lor (castling_rights setup1) (bb_of square))
             (ep_square setup1) (halfmoves setup1) (fullmoves setup1))
     else if value =? 15 then
       Ok (mkSetup (board setup1) Black (castling_rights setup1)
             (ep_square setup1) (halfmoves setup1) (fullmoves setup1))
     else Ok setup1);;
  Ok (mkDecState setup2 i' byte' (negb read_more)).

Fixpoint decode_squares (bytes : list Z) (st : DecState) (squares : list Square)
  : outcome DecState :=
  match squares with
  | [] => Ok st
  | sq :: squares' => st' <- decode_square bytes st sq;; decode_squares bytes st' squares'
  end.

(** Squares of a bitboard in ascending order ([for square in occupied]). *)
Definition bb_squares (bb : Z) : list Square := filter (bb_contains bb) all_squares.

(** [decompress]. *)
Definition decompress (bytes : list Z) : outcome Setup :=
  if Nat.ltb (length bytes) 8 then Err MissingBytes else
  let occ := from_be_bytes (firstn 8 bytes) in
  st <- decode_squares bytes (mkDecState Setup_empty 8 0 true) (bb_squares occ);;
  let setup := ds_setup st in
  let rest := skipn (ds_i st) bytes in
  r1 <- (match rest with
         | [] => Ok (setup, rest)
         | _ => r <- leb128_read rest;;
                Ok (mkSetup (board setup) (turn setup) (castling_rights setup)
                      (ep_square setup) (fst r mod 2 ^ 32) (fullmoves setup), snd r)
         end);;
  let '(setup, rest) := r1 in
  match rest with
  | [] => Ok setup
  | _ =>
      r <- leb128_read rest;;
      let ply_count := fst r mod 2 ^ 32 in
      let t := if ply_count mod 2 =? 1 then Black else turn setup in
      let black_offset := match t with Black => 1 | White => 0 end in
      d <- u32_checked (ply_count - black_offset);;
      f <- u32_checked (d / 2 + 1);;
      Ok (mkSetup (board setup) t (castling_rights setup) (ep_square setup)
            (halfmoves setup) f)
  end.

(** ** Statement-side definitions *)

Section SpecKey.
Variable Pos : Type.
Variable turn : Pos -> Color.
Variable their_pawns : Pos -> Z.

(** The sort key as the specification words it (section 4.3), with [<<]
    read as multiplication by a power of two. *)
Definition spec_sort_key (position : Pos) (m : Move) : Z :=
  let role_idx := role_to_int (move_role m) - 1 in
  let to_sq := sq_z (move_to m) in
  let from_sq := match move_from m with Some f => sq_z f | None => 0 end in
  let flip sq := match turn position with White => Z.lxor sq 56 | Black => sq end in
  let move_value := psqt role_idx (flip to_sq) - psqt role_idx (flip from_sq) in
  let dps := if defending_pawns Pos turn their_pawns m position =? 0 then 6
             else 6 - role_to_int (move_role m) in
  - ((match move_promotion m with
      | Some p => (role_to_int p - 1) * 2 ^ 26 | None => 0 end)
     + (if move_is_capture m then 2 ^ 25 else 0)
     + dps * 2 ^ 22
     + (512 + move_value) * 2 ^ 12
     + to_sq * 2 ^ 6
     + from_sq).
End SpecKey.

Section LegalSeq.
Variable Pos : Type.
Variable legal_moves : Pos -> list Move.
Variable play : Pos -> Move -> option Pos.

(** [ms] is a sequence of moves each legal in the position the previous
    ones reach from [p]. *)
Inductive legal_seq : Pos -> list Move -> Prop :=
| legal_seq_nil p : legal_seq p []
| legal_seq_cons p p' m ms :
    In m (legal_moves p) -> play p m = Some p' -> legal_seq p' ms ->
    legal_seq p (m :: ms).
End LegalSeq.

(** ** Concrete positions and a small rules oracle over [Setup] *)

Definition sq (i : nat) : Square :=
  match square_of_Z (Z.of_nat i) with Some s => s | None => mkSquare 0 eq_refl end.

Definition pc (r : Role) (c : Color) : option Piece := Some (mkPiece c r).

(** [position.their(Role::Pawn)] for a setup. *)
Definition setup_their_pawns (s : Setup) : Z :=
  fold_right (fun q acc => match piece_at (board s) q with
                           | Some p => if Color_beq (piece_color p) (color_not (turn s))
                                          && Role_beq (piece_role p) Pawn
                                       then Z.lor (bb_of q) acc else acc
                           | None => acc
                           end) 0 all_squares.

Definition start_board : Board :=
  [pc Rook White; pc Knight White; pc Bishop White; pc Queen White;
   pc King White; pc Bishop White; pc Knight White; pc Rook White]
  ++ repeat (pc Pawn White) 8 ++ repeat None 32 ++ repeat (pc Pawn Black) 8
  ++ [pc Rook Black; pc Knight Black; pc Bishop Black; pc Queen Black;
      pc King Black; pc Bishop Black; pc Knight Black; pc Rook Black].

(** The starting position: castling rights a1, h1, a8, h8. *)
Definition start_setup : Setup :=
  mkSetup start_board White (Z.lor (Z.lor (bb_of (sq 0)) (bb_of (sq 7)))
                                   (Z.lor (bb_of (sq 56)) (bb_of (sq 63))))
          None 0 1.

Definition e2e4 : Move := Normal Pawn (sq 12) None (sq 28) None.
Definition g1f3 : Move := Normal Knight (sq 6) None (sq 21) None.
Definition e7e5 : Move := Normal Pawn (sq 52) None (sq 36) None.

(** A stand-in for the rules oracle: it offers the moves above and playing
    a move passes the turn. *)
Definition toy_legal_moves (s : Setup) : list Move := [e2e4; g1f3; e7e5].
Definition toy_play (s : Setup) (m : Move) : option Setup :=
  Some (mkSetup (board s) (color_not (turn s)) (castling_rights s) None
                (halfmoves s) (fullmoves s)).

(** Kings on e1 and e8, Black to move, en-passant square e3 but no pawn on
    e4. *)
Definition ep_no_pawn_setup : Setup :=
  mkSetup (list_set (list_set (repeat None 64) 4 (pc King White)) 60 (pc King Black))
          Black 0 (Some (sq 20)) 0 1.

(** The starting position with fullmove counter [2^31 + 1]. *)
Definition start_setup_late : Setup :=
  mkSetup start_board White (castling_rights start_setup) None 0 2147483649.

(** ** Definitions for the further properties *)

Section Fields.
Variable Pos : Type.
Variable turn : Pos -> Color.
Variable their_pawns : Pos -> Z.

(** The six fields of [move_score] before shifting, most significant
    first: promotion role minus one, capture, defending-pawn score,
    [512 + move_value], target square, origin square. *)
Definition score_fields (position : Pos) (m : Move) : list Z :=
  [ match move_promotion m with Some p => role_to_int p - 1 | None => 0 end;
    if move_is_capture m then 1 else 0;
    if defending_pawns Pos turn their_pawns m position =? 0 then 6
    else 6 - role_to_int (move_role m);
    match move_value Pos turn position m with Ok v => 512 + v | _ => 0 end;
    sq_z (move_to m);
    match move_from m with Some f => sq_z f | None => 0 end ].
End Fields.

(** Lexicographic "greater than" on lists of integers. *)
Fixpoint lex_gt (a b : list Z) : bool :=
  match a, b with
  | x :: a', y :: b' => (y <? x) || ((x =? y) && lex_gt a' b')
  | _, _ => false
  end.

(** [ms] is a sequence of moves, each legal where the previous ones lead,
    that goes from [p] to [p'']. *)
Section LegalPath.
Variable Pos : Type.
Variable legal_moves : Pos -> list Move.
Variable play : Pos -> Move -> option Pos.
Inductive legal_path : Pos -> list Move -> Pos -> Prop :=
| legal_path_nil p : legal_path p [] p
| legal_path_cons p p' p'' m ms :
    In m (legal_moves p) -> play p m = Some p' -> legal_path p' ms p'' ->
    legal_path p (m :: ms) p''.
End LegalPath.

(** Every square whose castling-right bit is set holds a rook. *)
Definition castling_on_rooks (P : Setup) : bool :=
  forallb (fun q => negb (bb_contains (castling_rights P) q)
                    || match piece_at (board P) q with
                       | Some p => Role_beq (piece_role p) Rook
                       | None => false
                       end) all_squares.

(** The en-passant square lies on the rank behind a double push of the side
    not to move (rank index 5 with White to move, 2 with Black), and a pawn
    on the pushed-to square belongs to the side not to move. *)
Definition ep_consistent (P : Setup) : bool :=
  match ep_square P with
  | None => true
  | Some e =>
      (sq_rank e =? match turn P with White => 5 | Black => 2 end)
      && match sq_offset e (match turn P with Black => 8 | White => -8 end) with
         | Some s => match piece_at (board P) s with
                     | Some p => negb (Role_beq (piece_role p) Pawn)
                                 || Color_beq (piece_color p) (color_not (turn P))
                     | None => true
                     end
         | None => false
         end
  end.

(** The en-passant square [decompress] gives back for a position: kept
    when a pawn stands on the pushed-to square, dropped otherwise. *)
Definition ep_decoded (P : Setup) : option Square :=
  match ep_square P with
  | None => None
  | Some e =>
      match sq_offset e (match turn P with Black => 8 | White => -8 end) with
      | Some s => match piece_at (board P) s with
                  | Some p => if Role_beq (piece_role p) Pawn then Some e else None
                  | None => None
                  end
      | None => None
      end
  end.

Section DecodeStep.
Variable value : Square * Piece -> Z.
Variable e0 : Square.

(** One step of [decompress]'s square loop on a piece coded [value x]. *)
Definition step_setup (setup : Setup) (x : Square * Piece) : Setup :=
  mkSetup (set_piece_at (board setup) (fst x) (snd x))
    (if value x =? 15 then Black else turn setup)
    (if (value x =? 13) || (value x =? 14) then Z.lor (castling_rights setup) (bb_of (fst x))
     else castling_rights setup)
    (if value x =? 12 then Some e0 else ep_square setup)
    (halfmoves setup) (fullmoves setup).
End DecodeStep.

(** Placing a list of pieces on a board, in order. *)
Definition set_all (L : list (Square * Piece)) (b0 : Board) : Board :=
  fold_left (fun b x => set_piece_at b (fst x) (snd x)) L b0.

(** What the square loop of [decompress] keeps: a 64-square board, the
    clocks of [Setup::empty], and castling rights only on squares already
    decoded that hold a rook. *)
Definition decode_inv (s : Setup) (R : list Square) : Prop :=
  length (board s) = 64%nat /\ halfmoves s = 0 /\ fullmoves s = 1 /\
  forall q, bb_contains (castling_rights s) q = true ->
    (exists p, piece_at (board s) q = Some p /\ piece_role p = Rook) /\ ~ In q R.

(** After 1. e4, Black to move, en-passant square e3, 3 halfmoves,
    move 7. *)
Definition e4_setup : Setup :=
  mkSetup (list_set (list_set start_board 12 None) 28 (pc Pawn White)) Black
          (castling_rights start_setup) (Some (sq 20)) 3 7.

(** White: Ke1; Black: Ka8 and Ke8; Black to move, move 1. *)
Definition two_kings_setup : Setup :=
  mkSetup (list_set (list_set (list_set (repeat None 64) 4 (pc King White))
                              56 (pc King Black))
                    60 (pc King Black))
          Black 0 None 0 1.

(** A move the toy oracle does not offer. *)
Definition d1h5 : Move := Normal Queen (sq 3) None (sq 39) None.

(** * Proofs *)

(** ** The Huffman trie *)

Lemma ROOT_eq : ROOT = Ok root_tree.
Proof. vm_compute. reflexivity. Qed.

Lemma build_tree_root : build_tree 0 0 = Ok root_tree.
Proof. exact ROOT_eq. Qed.

Lemma walk_app t bs i r rest :
  walk t bs = Ok (i, r) -> walk t (bs ++ rest) = Ok (i, r ++ rest).
Proof.
  revert bs; induction t as [z IHz o IHo | n]; intros bs H; simpl in *.
  - destruct bs as [|b bs]; [discriminate|].
    destruct b; simpl; auto.
  - injection H; intros; subst; reflexivity.
Qed.

Lemma walk_leaves t bs i r :
  walk t bs = Ok (i, r) -> exists p, In (p, i) (leaves t) /\ bs = p ++ r.
Proof.
  revert bs; induction t as [z IHz o IHo | n]; intros bs H; simpl in *.
  - destruct bs as [|b bs]; [discriminate|].
    destruct b.
    + destruct (IHo _ H) as [p [Hin ->]].
      exists (true :: p); split; [|reflexivity].
      apply in_or_app; right.
      apply (in_map (fun '(p, n) => (true :: p, n)) _ (p, i) Hin).
    + destruct (IHz _ H) as [p [Hin ->]].
      exists (false :: p); split; [|reflexivity].
      apply in_or_app; left.
      apply (in_map (fun '(p, n) => (false :: p, n)) _ (p, i) Hin).
  - injection H; intros; subst. exists []; split; [left; reflexivity | reflexivity].
Qed.

Lemma walk_depth t bs :
  (tree_depth t <= length bs)%nat ->
  exists i r, walk t bs = Ok (i, r) /\ (length bs - length r <= tree_depth t)%nat.
Proof.
  revert bs; induction t as [z IHz o IHo | n]; intros bs H; simpl in *.
  - destruct bs as [|b bs]; simpl in H; [lia|].
    destruct b.
    + pose proof (Nat.le_max_r (tree_depth z) (tree_depth o)).
      destruct (IHo bs) as [i [r [Hw Hl]]]; [lia|].
      exists i, r; split; [exact Hw|]. cbn [length]; lia.
    + pose proof (Nat.le_max_l (tree_depth z) (tree_depth o)).
      destruct (IHz bs) as [i [r [Hw Hl]]]; [lia|].
      exists i, r; split; [exact Hw|]. cbn [length]; lia.
  - exists n, bs; split; [reflexivity | lia].
Qed.

Definition codes_decode_check : bool :=
  forallb (fun n => match walk root_tree (code_bits (Z.of_nat n)) with
                    | Ok (j, []) => j =? Z.of_nat n
                    | _ => false
                    end) (seq 0 256).

Lemma codes_decode_check_ok : codes_decode_check = true.
Proof. vm_compute. reflexivity. Qed.

Definition leaves_check : bool :=
  forallb (fun '(p, i) => (0 <=? i) && (i <? 256)
                          && (if list_eq_dec bool_dec p (code_bits i) then true else false)
                          && Nat.leb (length p) 31)
          (leaves root_tree).

Lemma leaves_check_ok : leaves_check = true.
Proof. vm_compute. reflexivity. Qed.

Lemma tree_depth_root : tree_depth root_tree = 31%nat.
Proof. vm_compute. reflexivity. Qed.

Lemma walk_code i : 0 <= i < 256 -> walk root_tree (code_bits i) = Ok (i, []).
Proof.
  intros Hi.
  pose proof codes_decode_check_ok as H; unfold codes_decode_check in H.
  rewrite forallb_forall in H.
  specialize (H (Z.to_nat i)). rewrite Z2Nat.id in H by lia.
  assert (Hin : In (Z.to_nat i) (seq 0 256)) by (apply in_seq; lia).
  specialize (H Hin).
  destruct (walk root_tree (code_bits i)) as [[j r]| |]; try discriminate.
  destruct r; [|discriminate]. apply Z.eqb_eq in H; subst; reflexivity.
Qed.

Lemma read_code i rest : 0 <= i < 256 -> read (code_bits i ++ rest) = Ok (i, rest).
Proof.
  intros Hi. unfold read; rewrite ROOT_eq; cbn [bind].
  apply (walk_app _ _ _ [] rest), walk_code, Hi.
Qed.

Lemma read_leaf bs i r :
  read bs = Ok (i, r) -> 0 <= i < 256 /\ bs = code_bits i ++ r /\ (length (code_bits i) <= 31)%nat.
Proof.
  unfold read; rewrite ROOT_eq; cbn [bind]; intros H.
  destruct (walk_leaves _ _ _ _ H) as [p [Hin ->]].
  pose proof leaves_check_ok as Hc; unfold leaves_check in Hc.
  rewrite forallb_forall in Hc; specialize (Hc _ Hin); simpl in Hc.
  destruct (list_eq_dec bool_dec p (code_bits i)) as [E|E];
    [|rewrite !andb_false_r in Hc; discriminate].
  apply andb_prop in Hc as [Hc Hlen]; apply andb_prop in Hc as [Hc _].
  apply andb_prop in Hc as [H0 H1].
  apply Z.leb_le in H0; apply Z.ltb_lt in H1; apply Nat.leb_le in Hlen.
  subst p; repeat split; auto; lia.
Qed.

(** C3: the trie construction [build_tree(0, 0)] terminates (returns a trie
    rather than overflowing [bits]); every table code decodes to its own
    symbol (prefix code), and every bit sequence of at least 31 bits is
    decoded by the trie descent after reading at most 31 bits, the bits
    read being the table code of the symbol returned (complete code). *)
Theorem huffman_complete_prefix_code :
  build_tree 0 0 = Ok root_tree /\
  tree_depth root_tree = 31%nat /\
  (forall i rest, 0 <= i < 256 -> read (code_bits i ++ rest) = Ok (i, rest)) /\
  (forall bs, (31 <= length bs)%nat ->
     exists i rest, read bs = Ok (i, rest) /\ 0 <= i < 256 /\
       bs = code_bits i ++ rest /\ (length bs - length rest <= 31)%nat).
Proof.
  split; [exact build_tree_root|].
  split; [exact tree_depth_root|].
  split; [intros; apply read_code; assumption|].
  intros bs Hlen.
  destruct (walk_depth root_tree bs) as [i [r [Hw Hl]]]; [rewrite tree_depth_root; exact Hlen|].
  assert (Hr : read bs = Ok (i, r)) by (unfold read; rewrite ROOT_eq; exact Hw).
  destruct (read_leaf _ _ _ Hr) as [Hi [Hbs _]].
  exists i, r; repeat split; auto; lia.
Qed.

(** ** Move scoring arithmetic *)

Lemma i32_checked_ok z : -2 ^ 31 <= z < 2 ^ 31 -> i32_checked z = Ok z.
Proof.
  intros H; unfold i32_checked.
  destruct (Z.leb_spec (-2 ^ 31) z), (Z.ltb_spec z (2 ^ 31)); simpl; auto; lia.
Qed.

Lemma i32_shl_ok x n : 0 <= n -> 0 <= x * 2 ^ n < 2 ^ 31 -> i32_shl x n = x * 2 ^ n.
Proof.
  intros Hn H; unfold i32_shl, i32_wrap.
  rewrite Z.shiftl_mul_pow2 by exact Hn.
  rewrite Z.mod_small by lia.
  destruct (Z.ltb_spec (x * 2 ^ n) (2 ^ 31)); lia.
Qed.

Lemma psqt_range r i : -50 <= psqt r i <= 50.
Proof.
  assert (H : forall x, In x (concat PSQT) -> -50 <= x <= 50).
  { intros x Hx.
    assert (Hc : forallb (fun x => (-50 <=? x) && (x <=? 50)) (concat PSQT) = true)
      by (vm_compute; reflexivity).
    rewrite forallb_forall in Hc; specialize (Hc x Hx).
    apply andb_prop in Hc as [H1 H2]; apply Z.leb_le in H1; apply Z.leb_le in H2; lia. }
  unfold psqt.
  destruct (nth_in_or_default (Z.to_nat r) PSQT []) as [Hrow | Hrow].
  - destruct (nth_in_or_default (Z.to_nat i) (nth (Z.to_nat r) PSQT []) 0) as [Hx | Hx].
    + apply H, in_concat. eexists; split; [exact Hrow | exact Hx].
    + rewrite Hx; lia.
  - rewrite Hrow. destruct (Z.to_nat i); simpl; lia.
Qed.

Lemma sq_z_range s : 0 <= sq_z s < 64.
Proof.
  destruct s as [i Hi]; unfold sq_z; simpl.
  apply Nat.ltb_lt in Hi; lia.
Qed.

Lemma role_to_int_range r : 1 <= role_to_int r <= 6.
Proof. destruct r; simpl; lia. Qed.

Section Scoring.
Variable Pos : Type.
Variable turn : Pos -> Color.
Variable their_pawns : Pos -> Z.

Lemma move_value_eq P m f :
  move_from m = Some f ->
  move_value Pos turn P m =
  Ok (psqt (role_to_int (move_role m) - 1)
        (match turn P with White => flip_vertical (move_to m) | Black => sq_z (move_to m) end)
      - psqt (role_to_int (move_role m) - 1)
        (match turn P with White => flip_vertical f | Black => sq_z f end)).
Proof.
  intros Hf. unfold move_value. rewrite Hf. cbn [unwrap bind].
  pose proof (psqt_range (role_to_int (move_role m) - 1)
                (match turn P with White => flip_vertical (move_to m) | Black => sq_z (move_to m) end)).
  pose proof (psqt_range (role_to_int (move_role m) - 1)
                (match turn P with White => flip_vertical f | Black => sq_z f end)).
  destruct (turn P); apply i32_checked_ok; lia.
Qed.

(** The summands of the score and their ranges. *)
Lemma move_score_eq P m f :
  move_from m = Some f ->
  exists mv, move_value Pos turn P m = Ok mv /\ -100 <= mv <= 100 /\
  move_score Pos turn their_pawns m P = Ok (spec_sort_key Pos turn their_pawns P m).
Proof.
  intros Hf.
  pose proof (move_value_eq P m f Hf) as Hmv.
  set (mv := psqt _ _ - psqt _ _) in Hmv.
  assert (Hmvr : -100 <= mv <= 100).
  { subst mv. match goal with |- context [psqt ?a ?b - psqt ?a ?c] =>
      pose proof (psqt_range a b); pose proof (psqt_range a c) end; lia. }
  exists mv; split; [exact Hmv|]; split; [exact Hmvr|].
  unfold move_score, spec_sort_key.
  rewrite Hmv, Hf.
  replace (psqt (role_to_int (move_role m) - 1)
             (match turn P with White => Z.lxor (sq_z (move_to m)) 56 | Black => sq_z (move_to m) end)
           - psqt (role_to_int (move_role m) - 1)
             (match turn P with White => Z.lxor (sq_z f) 56 | Black => sq_z f end)) with mv
    by (subst mv; destruct (turn P); reflexivity).
  pose proof (sq_z_range (move_to m)) as Hto; pose proof (sq_z_range f) as Hfr.
  pose proof (role_to_int_range (move_role m)) as Hr.
  set (to := sq_z (move_to m)) in *.
  set (fr := sq_z f) in *.
  assert (Hdps : exists dps, (if defending_pawns Pos turn their_pawns m P =? 0 then Ok 6
            else i32_checked (6 - role_to_int (move_role m))) = Ok dps /\
            (if defending_pawns Pos turn their_pawns m P =? 0 then 6
             else 6 - role_to_int (move_role m)) = dps /\ 0 <= dps <= 6).
  { destruct (_ =? 0).
    - exists 6; repeat split; lia.
    - exists (6 - role_to_int (move_role m)); rewrite i32_checked_ok by lia; repeat split; lia. }
  destruct Hdps as [dps [Hd1 [Hd2 Hd3]]].
  rewrite Hd1, Hd2; cbn [bind unwrap].
  assert (Hp : exists t1, (match move_promotion m with
                           | Some promoted => p <- i32_checked (role_to_int promoted - 1);; Ok (i32_shl p 26)
                           | None => Ok 0 end) = Ok t1 /\
            (match move_promotion m with Some p => (role_to_int p - 1) * 2 ^ 26 | None => 0 end) = t1
            /\ 0 <= t1 <= 5 * 2 ^ 26).
  { destruct (move_promotion m) as [p|].
    - pose proof (role_to_int_range p).
      exists ((role_to_int p - 1) * 2 ^ 26).
      rewrite i32_checked_ok by lia; cbn [bind].
      rewrite i32_shl_ok by lia. repeat split; lia.
    - exists 0; repeat split; lia. }
  destruct Hp as [t1 [Hp1 [Hp2 Hp3]]].
  rewrite Hp1, Hp2; cbn [bind].
  assert (Hc : exists t2, (if move_is_capture m then i32_shl 1 25 else 0) = t2 /\
            (if move_is_capture m then 2 ^ 25 else 0) = t2 /\ 0 <= t2 <= 2 ^ 25).
  { destruct (move_is_capture m).
    - exists (2 ^ 25); rewrite i32_shl_ok by lia; repeat split; lia.
    - exists 0; repeat split; lia. }
  destruct Hc as [t2 [Hc1 [Hc2 Hc3]]].
  rewrite Hc1, Hc2.
  rewrite (i32_shl_ok dps 22) by lia.
  rewrite (i32_checked_ok (512 + mv)) by lia; cbn [bind].
  rewrite (i32_shl_ok (512 + mv) 12) by lia.
  rewrite (i32_shl_ok to 6) by lia.
  rewrite (i32_checked_ok (t1 + t2)) by lia; cbn [bind].
  rewrite (i32_checked_ok (t1 + t2 + dps * 2 ^ 22)) by lia; cbn [bind].
  rewrite (i32_checked_ok (t1 + t2 + dps * 2 ^ 22 + (512 + mv) * 2 ^ 12)) by lia; cbn [bind].
  rewrite (i32_checked_ok (t1 + t2 + dps * 2 ^ 22 + (512 + mv) * 2 ^ 12 + to * 2 ^ 6)) by lia;
    cbn [bind].
  change (sq_z f) with fr.
  rewrite (i32_checked_ok (t1 + t2 + dps * 2 ^ 22 + (512 + mv) * 2 ^ 12 + to * 2 ^ 6 + fr))
    by lia; cbn [bind].
  rewrite i32_checked_ok by lia. reflexivity.
Qed.

End Scoring.

(** ** The stable sort *)

Section SortByKey.
Variable A : Type.

Lemma insert_by_key_perm (x : A * Z) l : Permutation (x :: l) (insert_by_key x l).
Proof.
  induction l as [|y l IH]; simpl; [reflexivity|].
  destruct (snd x <=? snd y); [reflexivity|].
  rewrite perm_swap. constructor. exact IH.
Qed.

Lemma sort_by_key_perm (l : list (A * Z)) : Permutation l (sort_by_key l).
Proof.
  induction l as [|x l IH]; simpl; [reflexivity|].
  rewrite <- insert_by_key_perm. constructor. exact IH.
Qed.

Lemma insert_by_key_sorted (x : A * Z) l :
  StronglySorted (fun a b => snd a <= snd b) l ->
  StronglySorted (fun a b => snd a <= snd b) (insert_by_key x l).
Proof.
  induction l as [|y l IH]; intros Hs; simpl.
  - repeat constructor.
  - inversion Hs as [|? ? Hl Hy]; subst.
    destruct (Z.leb_spec (snd x) (snd y)).
    + constructor; [exact Hs|]. constructor; [lia|].
      eapply Forall_impl; [|exact Hy]. simpl; intros; lia.
    + constructor; [apply IH; exact Hl|].
      apply (Permutation_Forall (insert_by_key_perm x l)).
      constructor; [lia | exact Hy].
Qed.

Lemma sort_by_key_sorted (l : list (A * Z)) :
  StronglySorted (fun a b => snd a <= snd b) (sort_by_key l).
Proof.
  induction l as [|x l IH]; simpl; [constructor|].
  apply insert_by_key_sorted, IH.
Qed.

Lemma map_outcome_ok {B} (f : A -> outcome B) (g : A -> B) l :
  (forall x, In x l -> f x = Ok (g x)) -> map_outcome f l = Ok (map g l).
Proof.
  induction l as [|x l IH]; intros H; simpl; [reflexivity|].
  rewrite (H x (or_introl eq_refl)); cbn [bind].
  rewrite IH by (intros; apply H; right; assumption). reflexivity.
Qed.

(** Sorting pairs [(x, key x)] by their second component sorts the first
    components by [key]. *)
Lemma sort_by_key_map (key : A -> Z) (l : list A) :
  Permutation l (map fst (sort_by_key (map (fun x => (x, key x)) l))) /\
  StronglySorted (fun a b => key a <= key b)
    (map fst (sort_by_key (map (fun x => (x, key x)) l))).
Proof.
  set (S := sort_by_key (map (fun x => (x, key x)) l)).
  assert (Hp : Permutation (map (fun x => (x, key x)) l) S) by apply sort_by_key_perm.
  split.
  - apply (Permutation_map fst) in Hp. rewrite map_map in Hp. simpl in Hp.
    rewrite map_id in Hp. exact Hp.
  - assert (Hk : Forall (fun p => snd p = key (fst p)) S).
    { apply (Permutation_Forall Hp). apply Forall_forall.
      intros p Hin. apply in_map_iff in Hin as [x [<- _]]. reflexivity. }
    pose proof (sort_by_key_sorted (map (fun x => (x, key x)) l)) as Hs.
    fold S in Hs. clearbody S. clear Hp.
    induction Hs as [|p S' Hs IH Hf]; simpl; constructor.
    + apply IH. inversion Hk; assumption.
    + inversion Hk as [|? ? Hp HS]; subst.
      apply Forall_map. apply Forall_forall. intros q Hq.
      rewrite Forall_forall in Hf, HS. specialize (Hf q Hq). specialize (HS q Hq).
      lia.
Qed.

End SortByKey.

Section Ordering.
Variable Pos : Type.
Variable turn : Pos -> Color.
Variable their_pawns : Pos -> Z.
Variable legal_moves : Pos -> list Move.

Lemma spec_sort_key_range P m :
  - 2 ^ 31 < spec_sort_key Pos turn their_pawns P m <= - (412 * 2 ^ 12).
Proof.
  unfold spec_sort_key.
  pose proof (sq_z_range (move_to m)).
  assert (0 <= match move_from m with Some f => sq_z f | None => 0 end < 64)
    by (destruct (move_from m) as [f|]; [apply sq_z_range | lia]).
  pose proof (role_to_int_range (move_role m)).
  match goal with |- context [psqt ?a ?b - psqt ?a ?c] =>
    pose proof (psqt_range a b); pose proof (psqt_range a c) end.
  assert (0 <= match move_promotion m with
               | Some p => (role_to_int p - 1) * 2 ^ 26 | None => 0 end <= 5 * 2 ^ 26)
    by (destruct (move_promotion m) as [p|]; [pose proof (role_to_int_range p); lia | lia]).
  destruct (move_is_capture m), (defending_pawns Pos turn their_pawns m P =? 0); lia.
Qed.

Lemma sorted_moves_ok P :
  (forall m, In m (legal_moves P) -> move_from m <> None) ->
  exists l, sorted_moves Pos turn their_pawns legal_moves P = Ok l /\
    Permutation (legal_moves P) l /\
    StronglySorted (fun a b => spec_sort_key Pos turn their_pawns P a
                               <= spec_sort_key Pos turn their_pawns P b) l.
Proof.
  intros Hnd. unfold sorted_moves.
  rewrite (map_outcome_ok _ _ (fun m => (m, spec_sort_key Pos turn their_pawns P m))).
  - cbn [bind].
    destruct (sort_by_key_map _ (spec_sort_key Pos turn their_pawns P) (legal_moves P))
      as [Hp Hs].
    eexists; split; [reflexivity|]. split; assumption.
  - intros m Hm.
    destruct (move_from m) as [f|] eqn:Hf; [|exfalso; exact (Hnd m Hm Hf)].
    destruct (move_score_eq Pos turn their_pawns P m f Hf) as [mv [_ [_ ->]]].
    reflexivity.
Qed.

(** C4: for a move with a from-square, the sort key computed by
    [move_score] is the negated sum of the packed fields: promotion
    [(role - 1) << 26], capture [1 << 25], [defending_pawn_score << 22],
    [(512 + move_value) << 12] (PSQT indices flipped by [sq ^ 56] exactly
    when White is to move), [to << 6] and [from]; and [sorted_moves]
    returns the legal moves (of a position without drops) ordered
    ascending by this key. *)
Theorem move_ordering_key :
  (forall P m f, move_from m = Some f ->
     move_score Pos turn their_pawns m P = Ok (spec_sort_key Pos turn their_pawns P m)) /\
  (forall P, (forall m, In m (legal_moves P) -> move_from m <> None) ->
     exists l, sorted_moves Pos turn their_pawns legal_moves P = Ok l /\
       Permutation (legal_moves P) l /\
       Sorted (fun a b => spec_sort_key Pos turn their_pawns P a
                          <= spec_sort_key Pos turn their_pawns P b) l).
Proof.
  split.
  - intros P m f Hf.
    destruct (move_score_eq Pos turn their_pawns P m f Hf) as [mv [_ [_ H]]]; exact H.
  - intros P Hnd.
    destruct (sorted_moves_ok P Hnd) as [l [H1 [H2 H3]]].
    exists l; repeat split; auto.
    apply StronglySorted_Sorted; exact H3.
Qed.

(** C9: for a move with a from-square, [move_value] lies in [-100, 100],
    so [512 + move_value >= 412]; the unnegated score lies in
    [412 << 12, 2^31) (no [i32] overflow, every checked operation
    succeeds), and [move_score] returns its negation, which is
    representable. *)
Theorem move_score_range P m f :
  move_from m = Some f ->
  exists mv score,
    move_value Pos turn P m = Ok mv /\ -100 <= mv <= 100 /\ 412 <= 512 + mv /\
    move_score Pos turn their_pawns m P = Ok (- score) /\
    0 <= 412 * 2 ^ 12 <= score /\ score < 2 ^ 31 /\ - 2 ^ 31 <= - score.
Proof.
  intros Hf.
  destruct (move_score_eq Pos turn their_pawns P m f Hf) as [mv [Hmv [Hr Hs]]].
  exists mv, (- spec_sort_key Pos turn their_pawns P m).
  pose proof (spec_sort_key_range P m).
  rewrite Z.opp_involutive.
  repeat split; auto; lia.
Qed.

End Ordering.

(** ** Bit writer and reader *)

Lemma bits_msb_length c n : length (bits_msb c n) = n.
Proof. induction n; simpl; auto. Qed.

Lemma byte_roundtrip l : length l = 8%nat -> bits_of_byte (byte_of_bits l) = l.
Proof.
  intros H.
  do 8 (destruct l as [|? l]; [discriminate|]).
  destruct l; [|discriminate].
  repeat match goal with b : bool |- _ => destruct b end; reflexivity.
Qed.

Lemma bytes_of_bits_n_roundtrip n l :
  length l = (8 * n)%nat -> bits_of_bytes (bytes_of_bits_n n l) = l.
Proof.
  revert l; induction n as [|n IH]; intros l H; cbn [bytes_of_bits_n].
  - destruct l; [reflexivity | simpl in H; lia].
  - unfold bits_of_bytes in *; cbn [flat_map].
    rewrite byte_roundtrip by (rewrite length_firstn; lia).
    rewrite IH by (rewrite length_skipn; lia).
    apply firstn_skipn.
Qed.

Lemma writer_output_bits bs :
  bits_of_bytes (writer_output bs) = bs ++ repeat false ((8 - length bs mod 8) mod 8).
Proof.
  unfold writer_output, pad_to_byte.
  apply bytes_of_bits_n_roundtrip.
  rewrite length_app, repeat_length.
  assert (Hd : forall k, (8 * k / 8 = k)%nat)
    by (intros k; rewrite Nat.mul_comm; apply Nat.div_mul; lia).
  set (n := length bs).
  pose proof (Nat.div_mod_eq n 8) as Hn.
  pose proof (Nat.mod_upper_bound n 8) as Hu.
  destruct (Nat.eq_dec (n mod 8) 0) as [E|E].
  - rewrite E. replace ((8 - 0) mod 8)%nat with 0%nat by reflexivity.
    replace (n + 0)%nat with (8 * (n / 8))%nat by lia. rewrite Hd. reflexivity.
  - rewrite (Nat.mod_small (8 - n mod 8)) by lia.
    replace (n + (8 - n mod 8))%nat with (8 * (n / 8 + 1))%nat by lia.
    rewrite Hd. reflexivity.
Qed.

(** ** Move codec *)

Lemma position_of_spec m l :
  match position_of m l with
  | Some i => nth_error l i = Some m /\ (i < length l)%nat
  | None => ~ In m l
  end.
Proof.
  induction l as [|x l IH]; simpl; [auto|].
  destruct (Move_eq_dec x m) as [E|E].
  - subst; split; [reflexivity | lia].
  - destruct (position_of m l) as [i|].
    + destruct IH as [H1 H2]; split; [exact H1 | lia].
    + intros [H|H]; [exact (E H) | exact (IH H)].
Qed.

Lemma code_bits_index i : (i < 256)%nat -> Z.of_nat i mod 256 = Z.of_nat i.
Proof. intros; apply Z.mod_small; lia. Qed.

Section Codec.
Variable Pos : Type.
Variable turn : Pos -> Color.
Variable their_pawns : Pos -> Z.
Variable legal_moves : Pos -> list Move.
Variable play : Pos -> Move -> option Pos.

(** Properties of the rules oracle for standard chess: no drop moves, at
    most 256 legal moves (standard chess has at most 218), and no move
    listed twice. *)
Hypothesis legal_moves_from : forall p m, In m (legal_moves p) -> move_from m <> None.
Hypothesis legal_moves_bound : forall p, (length (legal_moves p) <= 256)%nat.

Let sorted := sorted_moves Pos turn their_pawns legal_moves.

Lemma sorted_ok P :
  exists l, sorted P = Ok l /\ Permutation (legal_moves P) l /\ (length l <= 256)%nat.
Proof.
  destruct (sorted_moves_ok Pos turn their_pawns legal_moves P (legal_moves_from P))
    as [l [H1 [H2 _]]].
  exists l; repeat split; auto.
  rewrite <- (Permutation_length H2); apply legal_moves_bound.
Qed.

Lemma write_move_found P m w l i :
  sorted P = Ok l -> position_of m l = Some i -> (length l <= 256)%nat ->
  write_move Pos turn their_pawns legal_moves m P w = Ok (w ++ code_bits (Z.of_nat i)).
Proof.
  intros Hs Hp Hl. unfold write_move. fold sorted. rewrite Hs; cbn [bind].
  rewrite Hp. pose proof (position_of_spec m l) as Hspec; rewrite Hp in Hspec.
  rewrite code_bits_index by lia. reflexivity.
Qed.

Lemma read_move_code P l i m rest :
  sorted P = Ok l -> nth_error l i = Some m -> (i < 256)%nat ->
  read_move Pos turn their_pawns legal_moves (code_bits (Z.of_nat i) ++ rest) P = Ok (m, rest).
Proof.
  intros Hs Hn Hi. unfold read_move.
  rewrite read_code by lia; cbn [bind]. fold sorted. rewrite Hs; cbn [bind].
  rewrite Nat2Z.id, Hn. reflexivity.
Qed.

Lemma roundtrip_loop P ms :
  legal_seq Pos legal_moves play P ms ->
  forall w, exists bits,
    compress_loop Pos turn their_pawns legal_moves play ms P w = Ok (w ++ bits) /\
    forall rest acc,
      decompress_loop Pos turn their_pawns legal_moves play (length ms) (bits ++ rest) P acc
      = Ok (acc ++ ms).
Proof.
  induction 1 as [p | p p' m ms Hin Hplay Hseq IH]; intros w.
  - exists []; split; [rewrite app_nil_r; reflexivity|].
    intros; simpl; rewrite app_nil_r; reflexivity.
  - destruct (sorted_ok p) as [l [Hs [Hperm Hl]]].
    assert (Hinl : In m l) by (apply (Permutation_in _ Hperm), Hin).
    pose proof (position_of_spec m l) as Hspec.
    destruct (position_of m l) as [i|] eqn:Hp; [|contradiction].
    destruct Hspec as [Hnth Hi].
    destruct (IH (w ++ code_bits (Z.of_nat i))) as [bits [Hc Hd]].
    exists (code_bits (Z.of_nat i) ++ bits). split.
    + simpl. rewrite (write_move_found p m w l i Hs Hp Hl); cbn [bind].
      unfold play_res; rewrite Hplay; cbn [bind].
      rewrite Hc, app_assoc; reflexivity.
    + intros rest acc. simpl length; cbn [decompress_loop].
      rewrite <- app_assoc.
      rewrite (read_move_code p l i m (bits ++ rest) Hs Hnth) by lia; cbn [bind].
      unfold play_res; rewrite Hplay; cbn [bind].
      rewrite Hd, <- app_assoc; reflexivity.
Qed.

(** C1: for every start position and every sequence of moves each legal
    in the position reached by the previous ones, compressing succeeds and
    decompressing its output for [length ms] plies from the same position
    returns exactly [ms]. *)
Theorem move_stream_roundtrip P ms :
  legal_seq Pos legal_moves play P ms ->
  exists out,
    compress_from_position Pos turn their_pawns legal_moves play ms P = Ok out /\
    decompress_from_position Pos turn their_pawns legal_moves play out
      (Z.of_nat (length ms)) P = Ok ms.
Proof.
  intros Hseq.
  destruct (roundtrip_loop P ms Hseq []) as [bits [Hc Hd]].
  exists (writer_output bits). split.
  - unfold compress_from_position. rewrite Hc. reflexivity.
  - unfold decompress_from_position. rewrite Nat2Z.id, writer_output_bits.
    apply (Hd _ []).
Qed.

Hypothesis legal_moves_nodup : forall p, NoDup (legal_moves p).

(** C7: [write_move] fails with [MoveNotFound] exactly when the move is
    not in the sorted legal-move list; when it is, at index [i], the
    writer is extended by the Huffman code of symbol [i] (the position is
    only read). *)
Theorem write_move_spec P m w :
  exists l, sorted_moves Pos turn their_pawns legal_moves P = Ok l /\
    (write_move Pos turn their_pawns legal_moves m P w = Err MoveNotFound <-> ~ In m l) /\
    (forall i, nth_error l i = Some m ->
       write_move Pos turn their_pawns legal_moves m P w = Ok (w ++ code_bits (Z.of_nat i))).
Proof.
  destruct (sorted_ok P) as [l [Hs [Hperm Hl]]].
  assert (Hnd : NoDup l) by (apply (Permutation_NoDup Hperm), legal_moves_nodup).
  exists l; split; [exact Hs|].
  pose proof (position_of_spec m l) as Hspec.
  destruct (position_of m l) as [j|] eqn:Hp.
  - destruct Hspec as [Hnth Hj].
    rewrite (write_move_found P m w l j Hs Hp Hl).
    split.
    + split; [discriminate|]. intros Hn; exfalso; apply Hn.
      apply (nth_error_In _ _ Hnth).
    + intros i Hi.
      assert (i = j).
      { apply (proj1 (NoDup_nth_error l) Hnd); [|rewrite Hi, Hnth; reflexivity].
        apply nth_error_Some; rewrite Hi; discriminate. }
      subst; reflexivity.
  - assert (Hw : write_move Pos turn their_pawns legal_moves m P w = Err MoveNotFound)
      by (unfold write_move; fold sorted; rewrite Hs; cbn [bind]; rewrite Hp; reflexivity).
    split.
    + split; [intros _; exact Hspec | intros _; exact Hw].
    + intros i Hi; exfalso; apply Hspec, (nth_error_In _ _ Hi).
Qed.

(** C10: when [read] decodes a symbol [i], [read_move] returns a move if
    [i] is below the number of legal moves and panics (out-of-bounds
    index, not an [Error]) otherwise; in every position with fewer than
    256 legal moves some bit stream decodes to such a symbol. *)
Theorem read_move_index_bound :
  (forall P bs i rest, read bs = Ok (i, rest) ->
     ((Z.to_nat i < length (legal_moves P))%nat ->
        exists m, read_move Pos turn their_pawns legal_moves bs P = Ok (m, rest)) /\
     ((length (legal_moves P) <= Z.to_nat i)%nat ->
        read_move Pos turn their_pawns legal_moves bs P = Panic)) /\
  (forall P, (length (legal_moves P) < 256)%nat ->
     exists bs, read_move Pos turn their_pawns legal_moves bs P = Panic).
Proof.
  assert (Hmain : forall P bs i rest, read bs = Ok (i, rest) ->
     ((Z.to_nat i < length (legal_moves P))%nat ->
        exists m, read_move Pos turn their_pawns legal_moves bs P = Ok (m, rest)) /\
     ((length (legal_moves P) <= Z.to_nat i)%nat ->
        read_move Pos turn their_pawns legal_moves bs P = Panic)).
  { intros P bs i rest Hr.
    destruct (sorted_ok P) as [l [Hs [Hperm _]]].
    pose proof (Permutation_length Hperm) as Hlen.
    unfold read_move. rewrite Hr; cbn [bind]. fold sorted. rewrite Hs; cbn [bind].
    split.
    - intros Hi.
      destruct (nth_error l (Z.to_nat i)) as [m|] eqn:Hn.
      + exists m; reflexivity.
      + apply nth_error_None in Hn; lia.
    - intros Hi.
      destruct (nth_error l (Z.to_nat i)) as [m|] eqn:Hn; [|reflexivity].
      exfalso. assert (Z.to_nat i < length l)%nat
        by (apply nth_error_Some; rewrite Hn; discriminate). lia. }
  split; [exact Hmain|].
  intros P Hlt.
  exists (code_bits (Z.of_nat (length (legal_moves P))) ++ []).
  assert (Hc : 0 <= Z.of_nat (length (legal_moves P)) < 256) by lia.
  apply (proj2 (Hmain P _ _ [] (read_code _ [] Hc))).
  rewrite Nat2Z.id; lia.
Qed.

End Codec.

(** ** Squares and pawn attacks *)

Lemma square_of_Z_spec z :
  match square_of_Z z with
  | Some s => sq_z s = z
  | None => z < 0 \/ 64 <= z
  end.
Proof.
  unfold square_of_Z.
  destruct (Z.leb_spec 0 z) as [Hz|Hz]; [|left; lia].
  destruct (bool_dec (Nat.ltb (Z.to_nat z) 64) true) as [H|H].
  - unfold sq_z; simpl; lia.
  - right. destruct (Nat.ltb_spec (Z.to_nat z) 64); [contradiction|lia].
Qed.

Lemma sq_z_inj a b : sq_z a = sq_z b -> a = b.
Proof.
  intros H. destruct (Square_eq_dec a b) as [E|E]; [exact E|].
  exfalso; apply E. destruct a as [i Hi], b as [j Hj]; unfold sq_z in H; simpl in H.
  assert (i = j) by lia. subst j. f_equal. apply UIP_dec, bool_dec.
Qed.

Lemma all_squares_complete s : In s all_squares.
Proof.
  unfold all_squares. apply in_flat_map.
  exists (sq_index s). split.
  - apply in_seq. destruct s as [i Hi]; simpl. apply Nat.ltb_lt in Hi; lia.
  - pose proof (square_of_Z_spec (Z.of_nat (sq_index s))) as H.
    destruct (square_of_Z (Z.of_nat (sq_index s))) as [s'|].
    + left. apply sq_z_inj. exact H.
    + destruct s as [i Hi]; simpl in H. pose proof (proj1 (Nat.ltb_lt _ _) Hi); lia.
Qed.

Definition pawn_attacks_sym_check : bool :=
  forallb (fun c => forallb (fun s => forallb (fun t =>
    Bool.eqb (bb_contains (pawn_attacks c t) s)
             (bb_contains (pawn_attacks (color_not c) s) t)) all_squares) all_squares)
    [White; Black].

Lemma pawn_attacks_sym_check_ok : pawn_attacks_sym_check = true.
Proof. vm_compute. reflexivity. Qed.

(** A pawn of colour [c] on [t] attacks [s] exactly when a pawn of the
    other colour on [s] attacks [t]. *)
Lemma pawn_attacks_sym c s t :
  bb_contains (pawn_attacks c t) s = bb_contains (pawn_attacks (color_not c) s) t.
Proof.
  pose proof pawn_attacks_sym_check_ok as H; unfold pawn_attacks_sym_check in H.
  rewrite forallb_forall in H.
  assert (Hc : In c [White; Black]) by (destruct c; simpl; auto).
  specialize (H c Hc). rewrite forallb_forall in H.
  specialize (H s (all_squares_complete s)). rewrite forallb_forall in H.
  specialize (H t (all_squares_complete t)).
  apply Bool.eqb_prop in H. exact H.
Qed.

Section Defending.
Variable Pos : Type.
Variable turn : Pos -> Color.
Variable their_pawns : Pos -> Z.

(** C6: [defending_pawns] is [pawn_attacks(side to move, to) & their
    pawns], the squares from which a pawn of the opponent's colour attacks
    the to-square, intersected with the opponent's pawns: a square is in it
    exactly when it holds an opponent pawn that attacks the to-square. *)
Theorem defending_pawns_attackers P m s :
  defending_pawns Pos turn their_pawns m P
    = Z.land (pawn_attacks (turn P) (move_to m)) (their_pawns P) /\
  bb_contains (defending_pawns Pos turn their_pawns m P) s
    = bb_contains (their_pawns P) s
      && bb_contains (pawn_attacks (color_not (turn P)) s) (move_to m).
Proof.
  split; [reflexivity|].
  unfold defending_pawns, bb_contains. rewrite Z.land_spec.
  fold (bb_contains (pawn_attacks (turn P) (move_to m)) s).
  rewrite pawn_attacks_sym. apply andb_comm.
Qed.

End Defending.

(** ** Position codec: clock fields and the en-passant square *)

Lemma u32_checked_inv z y : u32_checked z = Ok y -> y = z /\ 0 <= z < 2 ^ 32.
Proof.
  unfold u32_checked; intros Hz.
  destruct (Z.leb_spec 0 z), (Z.ltb_spec z (2 ^ 32)); simpl in Hz;
    try discriminate; injection Hz; intros; subst; split; auto; lia.
Qed.

(** C5: whenever [compress] encodes a position, its output is the
    occupancy and nibble bytes followed by the halfmove-clock LEB128 field
    exactly when [halfmoves > 0], [ply > 1] or [broken_turn], and then by
    the ply-count LEB128 field exactly when [ply > 1] or [broken_turn],
    with [ply = (fullmoves - 1) * 2 + (1 if Black to move)] and
    [broken_turn] = Black to move without exactly one Black king (no
    Black king, or several). *)
Theorem compress_clock_fields P out :
  compress P = Ok out ->
  let ply := (fullmoves P - 1) * 2 + match turn P with Black => 1 | White => 0 end in
  let broken_turn := turn P = Black /\ length (kings_of (board P) Black) <> 1%nat in
  exists body f1 f2,
    compress_board P = Ok body /\ out = body ++ f1 ++ f2 /\
    ((0 < halfmoves P \/ 1 < ply \/ broken_turn) /\ f1 = leb128_write (halfmoves P)
     \/ ~ (0 < halfmoves P \/ 1 < ply \/ broken_turn) /\ f1 = []) /\
    ((1 < ply \/ broken_turn) /\ f2 = leb128_write ply
     \/ ~ (1 < ply \/ broken_turn) /\ f2 = []).
Proof.
  unfold compress; intros H.
  set (ply := (fullmoves P - 1) * 2 + match turn P with Black => 1 | White => 0 end).
  set (broken_turn := turn P = Black /\ length (kings_of (board P) Black) <> 1%nat).
  destruct (compress_board P) as [body| |]; cbn [bind] in H; try discriminate.
  destruct (u32_checked (fullmoves P - 1)) as [a| |] eqn:Ha; cbn [bind] in H; try discriminate.
  destruct (u32_checked (a * 2)) as [b| |] eqn:Hb; cbn [bind] in H; try discriminate.
  match type of H with context [u32_checked ?e] =>
    destruct (u32_checked e) as [c| |] eqn:Hc; cbn [bind] in H; try discriminate end.
  apply u32_checked_inv in Ha as [-> _]; apply u32_checked_inv in Hb as [-> _].
  apply u32_checked_inv in Hc as [Hc _].
  assert (Hply : c = ply) by (subst ply; rewrite Hc; destruct (turn P); lia).
  clear Hc; subst c.
  assert (Hbt : (Color_beq (turn P) Black
                 && match king_of (board P) Black with None => true | Some _ => false end)
                = true <-> broken_turn).
  { subst broken_turn. unfold king_of.
    destruct (turn P); [|destruct (kings_of (board P) Black) as [|k [|k' l]]]; simpl;
      split; intros Hx; try discriminate; try (destruct Hx; discriminate);
      try (destruct Hx; lia); try (split; [reflexivity | lia]); reflexivity. }
  injection H; intros <-.
  eexists body, _, _. split; [reflexivity|]. split; [reflexivity|].
  destruct (Color_beq (turn P) Black
            && match king_of (board P) Black with None => true | Some _ => false end).
  - assert (broken_turn) by (apply Hbt; reflexivity).
    rewrite !orb_true_r. split; left; split; auto.
  - assert (~ broken_turn) by (intros Hx; apply Hbt in Hx; discriminate).
    rewrite !orb_false_r.
    split.
    + destruct (Z.ltb_spec 0 (halfmoves P)), (Z.ltb_spec 1 ply); simpl;
        [left; split; auto; lia .. | right; split; [intros [?|[?|?]]; auto; lia | auto]].
    + destruct (Z.ltb_spec 1 ply);
        [left; split; auto; lia | right; split; [intros [?|?]; auto; lia | auto]].
Qed.

(** C5 as stated fails: with White Ke1 against Black Ka8 and Ke8, Black to
    move, move 1, halfmove clock 0, [ply] is 1 and Black has a king, so the
    claim's [broken_turn] is false and it predicts no clock field; but
    [king_of] sees two Black kings and returns [None], so [compress] writes
    both fields: [17; 0; 0; 0; 0; 0; 0; 16; 250; 15] followed by [0] and
    [1]. *)
Lemma compress_clock_fields_two_black_kings :
  ~ (forall P out,
       compress P = Ok out ->
       let ply := (fullmoves P - 1) * 2 + match turn P with Black => 1 | White => 0 end in
       let broken_turn :=
         turn P = Black /\
         ~ (exists q p, piece_at (board P) q = Some p /\
                        piece_color p = Black /\ piece_role p = King) in
       exists body f1 f2,
         compress_board P = Ok body /\ out = body ++ f1 ++ f2 /\
         ((0 < halfmoves P \/ 1 < ply \/ broken_turn) /\ f1 = leb128_write (halfmoves P)
          \/ ~ (0 < halfmoves P \/ 1 < ply \/ broken_turn) /\ f1 = []) /\
         ((1 < ply \/ broken_turn) /\ f2 = leb128_write ply
          \/ ~ (1 < ply \/ broken_turn) /\ f2 = [])).
Proof.
  intros H.
  assert (Hc : compress two_kings_setup = Ok [17; 0; 0; 0; 0; 0; 0; 16; 250; 15; 0; 1])
    by (vm_compute; reflexivity).
  specialize (H _ _ Hc). cbv zeta in H.
  destruct H as (body & f1 & f2 & Hb & Ho & H1 & H2).
  assert (Hbd : compress_board two_kings_setup = Ok [17; 0; 0; 0; 0; 0; 0; 16; 250; 15])
    by (vm_compute; reflexivity).
  rewrite Hbd in Hb. injection Hb as <-.
  assert (Hk : exists q p, piece_at (board two_kings_setup) q = Some p /\
                           piece_color p = Black /\ piece_role p = King).
  { exists (sq 60), (mkPiece Black King). split; [vm_compute; reflexivity | split; reflexivity]. }
  cbn [halfmoves fullmoves turn two_kings_setup] in H1, H2.
  destruct H1 as [[[Hh | [Hp | [_ Hn]]] _] | [_ E1]]; [lia | lia | contradiction |].
  destruct H2 as [[[Hp | [_ Hn]] _] | [_ E2]]; [lia | contradiction |].
  subst f1 f2. apply (f_equal (@length Z)) in Ho. vm_compute in Ho. discriminate.
Qed.

(** ** En-passant squares without a pushed pawn *)

Lemma pack_nibbles_ext (f g : Square * Piece -> Z) l :
  (forall x, In x l -> f x = g x) -> pack_nibbles f l = pack_nibbles g l.
Proof.
  remember (length l) as n eqn:Hn.
  revert l Hn; induction n as [n IH] using (well_founded_induction lt_wf).
  intros l Hn Hfg.
  destruct l as [|x [|y l']]; simpl; auto.
  - rewrite Hfg; simpl; auto.
  - rewrite (Hfg x), (Hfg y) by (simpl; auto).
    f_equal. apply (IH (length l')); [simpl in *; lia | reflexivity |].
    intros z Hz; apply Hfg; simpl; auto.
Qed.

Lemma board_iter_in b q p : In (q, p) (board_iter b) -> piece_at b q = Some p.
Proof.
  unfold board_iter. intros H. apply in_flat_map in H as [s [_ Hs]].
  destruct (piece_at b s) as [p'|] eqn:E; simpl in Hs; [|contradiction].
  destruct Hs as [Hs|[]]. injection Hs; intros <- <-; exact E.
Qed.

Lemma bb_contains_bb_of s q : bb_contains (bb_of s) q = if Square_eq_dec q s then true else false.
Proof.
  unfold bb_contains, bb_of. pose proof (sq_z_range s). pose proof (sq_z_range q).
  rewrite Z.shiftl_1_l, Z.pow2_bits_eqb by lia.
  destruct (Square_eq_dec q s) as [->|E].
  - apply Z.eqb_refl.
  - apply Z.eqb_neq. intros Hz; apply E, sq_z_inj; auto.
Qed.

Lemma compress_board_ep_without_pawn P e s :
  ep_square P = Some e ->
  sq_offset e (match turn P with Black => 8 | White => -8 end) = Some s ->
  (forall p, piece_at (board P) s = Some p -> piece_role p <> Pawn) ->
  compress_board P
  = compress_board (mkSetup (board P) (turn P) (castling_rights P) None
                            (halfmoves P) (fullmoves P)).
Proof.
  intros He Hs Hp. unfold compress_board, pushed_to_bb.
  cbn [board turn castling_rights ep_square].
  rewrite He, Hs. cbn [bind]. f_equal. f_equal.
  apply pack_nibbles_ext. intros [q p] Hin.
  apply board_iter_in in Hin.
  unfold piece_value. rewrite bb_contains_bb_of.
  destruct (Square_eq_dec q s) as [->|E].
  - destruct (piece_role p) eqn:R; try reflexivity.
    exfalso; exact (Hp p Hin R).
  - unfold bb_contains. rewrite Z.testbit_0_l. reflexivity.
Qed.

(** Claim C8 (amended): the encoder has no [MissingPiece] error.  When the
    square in front of the en-passant target (from the mover's side) holds
    no pawn, [compress] computes no code 12 and gives exactly what it gives
    for the same position without an en-passant square: it succeeds
    whenever that one does, and the en-passant square is dropped. *)
Theorem compress_ep_without_pawn P e s :
  ep_square P = Some e ->
  sq_offset e (match turn P with Black => 8 | White => -8 end) = Some s ->
  (forall p, piece_at (board P) s = Some p -> piece_role p <> Pawn) ->
  compress P
  = compress (mkSetup (board P) (turn P) (castling_rights P) None
                      (halfmoves P) (fullmoves P)).
Proof.
  intros He Hs Hp. unfold compress.
  rewrite (compress_board_ep_without_pawn P e s He Hs Hp). reflexivity.
Qed.

(** Claim C8 as stated fails: with Black to move, en-passant square e3 and
    no piece at all on e4, the encoder succeeds instead of failing. *)
Lemma compress_ep_without_pawn_succeeds :
  ep_square ep_no_pawn_setup = Some (sq 20) /\
  turn ep_no_pawn_setup = Black /\
  sq_offset (sq 20) 8 = Some (sq 28) /\
  piece_at (board ep_no_pawn_setup) (sq 28) = None /\
  compress ep_no_pawn_setup = Ok [16; 0; 0; 0; 0; 0; 0; 16; 250].
Proof.
  repeat split; vm_compute; reflexivity.
Qed.

(** ** Overflow of the ply counter *)

(** Claim C2: [(fullmoves - 1) * 2] is computed in [u32]; for a fullmove
    counter above [2^31] it overflows and [compress] panics, so the round
    trip fails on such a setup. *)
Theorem compress_fullmoves_overflow :
  fullmoves start_setup_late = 2147483649 /\ compress start_setup_late = Panic.
Proof.
  split; [reflexivity | vm_compute; reflexivity].
Qed.

(** The same board with fullmove counter 1 survives the round trip: only
    the counter makes [start_setup_late] fail. *)
Lemma start_setup_roundtrip :
  exists out, compress start_setup = Ok out /\ decompress out = Ok start_setup.
Proof.
  exists [255; 255; 0; 0; 0; 0; 255; 255; 45; 132; 74; 210; 0; 0; 0; 0;
          17; 17; 17; 17; 62; 149; 91; 227].
  split; vm_compute; reflexivity.
Qed.

(** ** Move ordering as a lexicographic order *)



Lemma StronglySorted_nth {A} (R : A -> A -> Prop) l i j a b :
  StronglySorted R l -> nth_error l i = Some a -> nth_error l j = Some b ->
  (i < j)%nat -> R a b.
Proof.
  intros Hs; revert i j; induction Hs as [|x l Hs IH Hf]; intros i j Hi Hj Hij.
  - destruct i; discriminate.
  - destruct i as [|i], j as [|j]; simpl in Hi, Hj; try lia.
    + injection Hi as <-. rewrite Forall_forall in Hf. apply Hf, (nth_error_In _ _ Hj).
    + apply (IH i j); auto; lia.
Qed.

Section FieldOrder.
Variable Pos : Type.
Variable turn : Pos -> Color.
Variable their_pawns : Pos -> Z.

Lemma spec_sort_key_fields P m f :
  move_from m = Some f ->
  exists p c d v t r,
    score_fields Pos turn their_pawns P m = [p; c; d; v; t; r] /\
    spec_sort_key Pos turn their_pawns P m
    = - (p * 2 ^ 26 + c * 2 ^ 25 + d * 2 ^ 22 + v * 2 ^ 12 + t * 2 ^ 6 + r) /\
    0 <= p <= 5 /\ 0 <= c <= 1 /\ 0 <= d <= 6 /\ 412 <= v <= 612 /\
    0 <= t < 64 /\ 0 <= r < 64.
Proof.
  intros Hf.
  destruct (move_score_eq Pos turn their_pawns P m f Hf) as [mv [Hmv [Hr _]]].
  unfold score_fields. rewrite Hmv, Hf.
  do 6 eexists. split; [reflexivity|].
  pose proof (move_value_eq Pos turn P m f Hf) as Hmv'. rewrite Hmv in Hmv'.
  injection Hmv' as Hmv'.
  unfold spec_sort_key. rewrite Hf.
  pose proof (sq_z_range (move_to m)). pose proof (sq_z_range f).
  pose proof (role_to_int_range (move_role m)).
  split.
  - replace (psqt (role_to_int (move_role m) - 1)
               (match turn P with White => Z.lxor (sq_z (move_to m)) 56 | Black => sq_z (move_to m) end)
             - psqt (role_to_int (move_role m) - 1)
               (match turn P with White => Z.lxor (sq_z f) 56 | Black => sq_z f end)) with mv
      by (rewrite Hmv'; destruct (turn P); reflexivity).
    destruct (move_promotion m), (move_is_capture m); lia.
  - destruct (move_promotion m) as [p|];
      [pose proof (role_to_int_range p)|];
      destruct (move_is_capture m), (defending_pawns Pos turn their_pawns m P =? 0);
      repeat split; lia.
Qed.

Lemma lex_gt_key P a b fa fb :
  move_from a = Some fa -> move_from b = Some fb ->
  lex_gt (score_fields Pos turn their_pawns P a) (score_fields Pos turn their_pawns P b) = true ->
  spec_sort_key Pos turn their_pawns P a < spec_sort_key Pos turn their_pawns P b.
Proof.
  intros Ha Hb Hlt.
  destruct (spec_sort_key_fields P a fa Ha) as (p&c&d&v&t&r&Hfa&->&?&?&?&?&?&?).
  destruct (spec_sort_key_fields P b fb Hb) as (p'&c'&d'&v'&t'&r'&Hfb&->&?&?&?&?&?&?).
  rewrite Hfa, Hfb in Hlt. simpl in Hlt.
  repeat match type of Hlt with
  | (_ || _) = true => apply orb_true_iff in Hlt; destruct Hlt as [Hlt|Hlt]
  | (_ && _) = true => apply andb_true_iff in Hlt; destruct Hlt as [?Heq Hlt]
  | (_ <? _) = true => apply Z.ltb_lt in Hlt
  end;
  repeat match goal with H : (_ =? _) = true |- _ => apply Z.eqb_eq in H end;
  try discriminate; lia.
Qed.

End FieldOrder.


Lemma lex_gt_irrefl a : lex_gt a a = false.
Proof.
  induction a as [|x a IH]; simpl; auto.
  rewrite Z.ltb_irrefl, Z.eqb_refl, IH; reflexivity.
Qed.

Section Order2.
Variable Pos : Type.
Variable turn : Pos -> Color.
Variable their_pawns : Pos -> Z.
Variable legal_moves : Pos -> list Move.

(** [sorted_moves] lists a move before every move whose score fields
    (promotion, capture, defending pawns, value, target, origin) are
    lexicographically smaller. *)
Theorem sorted_moves_lex_order P l i j a b :
  (forall m, In m (legal_moves P) -> move_from m <> None) ->
  sorted_moves Pos turn their_pawns legal_moves P = Ok l ->
  nth_error l i = Some a -> nth_error l j = Some b ->
  lex_gt (score_fields Pos turn their_pawns P a) (score_fields Pos turn their_pawns P b) = true ->
  (i < j)%nat.
Proof.
  intros Hnd Hs Ha Hb Hlt.
  destruct (sorted_moves_ok Pos turn their_pawns legal_moves P Hnd) as [l' [Hs' [Hp Hss]]].
  rewrite Hs in Hs'. injection Hs' as <-.
  assert (Hfrom : forall m, In m l -> exists f, move_from m = Some f).
  { intros m Hm. apply (Permutation_in _ (Permutation_sym Hp)) in Hm.
    destruct (move_from m) as [f|] eqn:E; [eauto | exfalso; exact (Hnd m Hm E)]. }
  destruct (Hfrom a (nth_error_In _ _ Ha)) as [fa Hfa].
  destruct (Hfrom b (nth_error_In _ _ Hb)) as [fb Hfb].
  pose proof (lex_gt_key Pos turn their_pawns P a b fa fb Hfa Hfb Hlt) as Hk.
  destruct (Nat.lt_trichotomy i j) as [H|[H|H]]; [exact H| |].
  - subst j. rewrite Ha in Hb. injection Hb as <-. rewrite lex_gt_irrefl in Hlt. discriminate.
  - pose proof (StronglySorted_nth _ l j i b a Hss Hb Ha H) as Hba. cbv beta in Hba. lia.
Qed.
End Order2.

Section Codec2.
Variable Pos : Type.
Variable turn : Pos -> Color.
Variable their_pawns : Pos -> Z.
Variable legal_moves : Pos -> list Move.
Variable play : Pos -> Move -> option Pos.
Hypothesis legal_moves_from : forall p m, In m (legal_moves p) -> move_from m <> None.
Hypothesis legal_moves_bound : forall p, (length (legal_moves p) <= 256)%nat.

Lemma prefix_loop P ms :
  legal_seq Pos legal_moves play P ms ->
  forall w, exists bits,
    compress_loop Pos turn their_pawns legal_moves play ms P w = Ok (w ++ bits) /\
    forall k rest acc, (k <= length ms)%nat ->
      decompress_loop Pos turn their_pawns legal_moves play k (bits ++ rest) P acc
      = Ok (acc ++ firstn k ms).
Proof.
  induction 1 as [p | p p' m ms Hin Hplay Hseq IH]; intros w.
  - exists []; split; [rewrite app_nil_r; reflexivity|].
    intros k rest acc Hk. simpl in Hk. assert (k = O) by lia. subst.
    simpl; rewrite app_nil_r; reflexivity.
  - destruct (sorted_ok Pos turn their_pawns legal_moves legal_moves_from legal_moves_bound p)
      as [l [Hs [Hperm Hl]]].
    assert (Hinl : In m l) by (apply (Permutation_in _ Hperm), Hin).
    pose proof (position_of_spec m l) as Hspec.
    destruct (position_of m l) as [i|] eqn:Hp; [|contradiction].
    destruct Hspec as [Hnth Hi].
    destruct (IH (w ++ code_bits (Z.of_nat i))) as [bits [Hc Hd]].
    exists (code_bits (Z.of_nat i) ++ bits). split.
    + simpl. rewrite (write_move_found Pos turn their_pawns legal_moves p m w l i Hs Hp Hl); cbn [bind].
      unfold play_res; rewrite Hplay; cbn [bind].
      rewrite Hc, app_assoc; reflexivity.
    + intros [|k] rest acc Hk.
      * simpl; rewrite app_nil_r; reflexivity.
      * cbn [decompress_loop]. rewrite <- app_assoc.
        rewrite (read_move_code Pos turn their_pawns legal_moves p l i m (bits ++ rest) Hs Hnth) by lia; cbn [bind].
        unfold play_res; rewrite Hplay; cbn [bind].
        simpl in Hk. rewrite Hd by lia. rewrite <- app_assoc; reflexivity.
Qed.

(** Decoding the output of [compress_from_position] for fewer plies than
    were encoded gives back the first moves of the game. *)
Theorem decompress_from_position_prefix P ms out plies :
  legal_seq Pos legal_moves play P ms ->
  compress_from_position Pos turn their_pawns legal_moves play ms P = Ok out ->
  plies <= Z.of_nat (length ms) ->
  decompress_from_position Pos turn their_pawns legal_moves play out plies P
  = Ok (firstn (Z.to_nat plies) ms).
Proof.
  intros Hseq Hc Hpl.
  destruct (prefix_loop P ms Hseq []) as [bits [Hc' Hd]].
  unfold compress_from_position in Hc. rewrite Hc' in Hc. cbn [bind] in Hc.
  injection Hc as <-.
  unfold decompress_from_position. rewrite writer_output_bits.
  apply (Hd _ _ []). lia.
Qed.

Lemma compress_loop_path P ms P' :
  legal_path Pos legal_moves play P ms P' ->
  forall rest w, exists w',
    compress_loop Pos turn their_pawns legal_moves play (ms ++ rest) P w
    = compress_loop Pos turn their_pawns legal_moves play rest P' w'.
Proof.
  induction 1 as [p | p p' p'' m ms Hin Hplay Hpath IH]; intros rest w.
  - exists w; reflexivity.
  - destruct (sorted_ok Pos turn their_pawns legal_moves legal_moves_from legal_moves_bound p)
      as [l [Hs [Hperm Hl]]].
    assert (Hinl : In m l) by (apply (Permutation_in _ Hperm), Hin).
    pose proof (position_of_spec m l) as Hspec.
    destruct (position_of m l) as [i|] eqn:Hp; [|contradiction].
    destruct (IH rest (w ++ code_bits (Z.of_nat i))) as [w' Hw'].
    exists w'. simpl.
    rewrite (write_move_found Pos turn their_pawns legal_moves p m w l i Hs Hp Hl); cbn [bind].
    unfold play_res; rewrite Hplay; cbn [bind]. exact Hw'.
Qed.

(** [compress_from_position] stops at the first move that is not legal
    where the previous moves lead: [MoveNotFound] if the rules do not
    offer it, [Chess] if playing it fails. *)
Theorem compress_from_position_first_illegal P ms P' m rest :
  legal_path Pos legal_moves play P ms P' ->
  (~ In m (legal_moves P') ->
     compress_from_position Pos turn their_pawns legal_moves play (ms ++ m :: rest) P
     = Err MoveNotFound) /\
  (In m (legal_moves P') -> play P' m = None ->
     compress_from_position Pos turn their_pawns legal_moves play (ms ++ m :: rest) P
     = Err Chess).
Proof.
  intros Hpath.
  destruct (sorted_ok Pos turn their_pawns legal_moves legal_moves_from legal_moves_bound P')
    as [l [Hs [Hperm Hl]]].
  unfold compress_from_position.
  split.
  - intros Hnin.
    destruct (compress_loop_path P ms P' Hpath (m :: rest) []) as [w' ->].
    cbn [compress_loop]. unfold write_move. rewrite Hs; cbn [bind].
    pose proof (position_of_spec m l) as Hspec.
    destruct (position_of m l) as [i|] eqn:Hp.
    + exfalso; apply Hnin, (Permutation_in _ (Permutation_sym Hperm)), (nth_error_In _ _ (proj1 Hspec)).
    + reflexivity.
  - intros Hin Hplay.
    destruct (compress_loop_path P ms P' Hpath (m :: rest) []) as [w' ->].
    assert (Hinl : In m l) by (apply (Permutation_in _ Hperm), Hin).
    pose proof (position_of_spec m l) as Hspec.
    destruct (position_of m l) as [i|] eqn:Hp; [|contradiction].
    cbn [compress_loop].
    rewrite (write_move_found Pos turn their_pawns legal_moves P' m w' l i Hs Hp Hl); cbn [bind].
    unfold play_res; rewrite Hplay. reflexivity.
Qed.
Lemma path_loop P ms P' :
  legal_path Pos legal_moves play P ms P' ->
  forall w, exists bits,
    compress_loop Pos turn their_pawns legal_moves play ms P w = Ok (w ++ bits) /\
    forall n rest acc,
      decompress_loop Pos turn their_pawns legal_moves play (length ms + n) (bits ++ rest) P acc
      = decompress_loop Pos turn their_pawns legal_moves play n rest P' (acc ++ ms).
Proof.
  induction 1 as [p | p p' p'' m ms Hin Hplay Hpath IH]; intros w.
  - exists []; split; [rewrite app_nil_r; reflexivity|].
    intros n rest acc. rewrite !app_nil_r. reflexivity.
  - destruct (sorted_ok Pos turn their_pawns legal_moves legal_moves_from legal_moves_bound p)
      as [l [Hs [Hperm Hl]]].
    assert (Hinl : In m l) by (apply (Permutation_in _ Hperm), Hin).
    pose proof (position_of_spec m l) as Hspec.
    destruct (position_of m l) as [i|] eqn:Hp; [|contradiction].
    destruct Hspec as [Hnth Hi].
    destruct (IH (w ++ code_bits (Z.of_nat i))) as [bits [Hc Hd]].
    exists (code_bits (Z.of_nat i) ++ bits). split.
    + simpl. rewrite (write_move_found Pos turn their_pawns legal_moves p m w l i Hs Hp Hl); cbn [bind].
      unfold play_res; rewrite Hplay; cbn [bind].
      rewrite Hc, app_assoc; reflexivity.
    + intros n rest acc. cbn [length Nat.add decompress_loop]. rewrite <- app_assoc.
      rewrite (read_move_code Pos turn their_pawns legal_moves p l i m (bits ++ rest) Hs Hnth) by lia.
      cbn [bind]. unfold play_res; rewrite Hplay; cbn [bind].
      rewrite Hd, <- app_assoc. reflexivity.
Qed.

Lemma code_bits_0 : code_bits 0 = [false; false].
Proof. reflexivity. Qed.

(** When the encoded moves fill between 1 and 6 bits of their last
    byte, the zero padding decodes as one more move: the first move of
    [sorted_moves] at the position reached. *)
Theorem decompress_from_position_padding P ms P' P'' bits out m0 l :
  legal_path Pos legal_moves play P ms P' ->
  compress_loop Pos turn their_pawns legal_moves play ms P [] = Ok bits ->
  (1 <= length bits mod 8 <= 6)%nat ->
  sorted_moves Pos turn their_pawns legal_moves P' = Ok (m0 :: l) ->
  play P' m0 = Some P'' ->
  compress_from_position Pos turn their_pawns legal_moves play ms P = Ok out ->
  decompress_from_position Pos turn their_pawns legal_moves play out
    (Z.of_nat (length ms) + 1) P = Ok (ms ++ [m0]).
Proof.
  intros Hpath Hbits Hlen Hs Hplay Hout.
  destruct (path_loop P ms P' Hpath []) as [bits' [Hc Hd]].
  rewrite Hbits in Hc. injection Hc as Hc. subst bits'.
  unfold compress_from_position in Hout. rewrite Hbits in Hout. cbn [bind] in Hout.
  injection Hout as <-.
  unfold decompress_from_position. rewrite writer_output_bits.
  replace (Z.to_nat (Z.of_nat (length ms) + 1)) with (length ms + 1)%nat by lia.
  set (pad := ((8 - length bits mod 8) mod 8)%nat).
  assert (Hpad : (2 <= pad)%nat).
  { subst pad. rewrite Nat.mod_small by lia. lia. }
  replace pad with (2 + (pad - 2))%nat by lia.
  cbn [repeat Nat.add]. rewrite Hd.
  cbn [decompress_loop]. unfold read_move.
  change (false :: false :: repeat false (pad - 2))
    with (code_bits 0 ++ repeat false (pad - 2)).
  rewrite read_code by lia. cbn [bind]. rewrite Hs. cbn [bind nth_error Z.to_nat].
  unfold play_res; rewrite Hplay. cbn [bind]. reflexivity.
Qed.
End Codec2.

(** ** LEB128 *)

Lemma leb128_roundtrip_n (f : nat) v result rest :
  (1 <= f <= 10)%nat -> 0 <= v < 2 ^ (7 * Z.of_nat f - 6) ->
  0 <= result < 2 ^ (70 - 7 * Z.of_nat f) ->
  leb128_read_n f (70 - 7 * Z.of_nat f) result (leb128_write_n f v ++ rest)
  = Ok (Z.lor result (Z.shiftl v (70 - 7 * Z.of_nat f)), rest).
Proof.
  revert v result.
  induction f as [|f IH]; intros v result Hf Hv Hr; [lia|].
  cbn [leb128_write_n].
  assert (Hsh : 0 <= 70 - 7 * Z.of_nat (S f)) by lia.
  destruct (Z.eqb_spec (Z.shiftr v 7) 0) as [E|E].
  - assert (Hv7 : v < 128).
    { rewrite Z.shiftr_div_pow2 in E by lia. apply Z.div_small_iff in E; lia. }
    assert (Hb : Z.land v 127 = v).
    { change 127 with (Z.ones 7). rewrite Z.land_ones by lia. apply Z.mod_small; lia. }
    rewrite Hb. cbn [app leb128_read_n].
    assert (Hc : (70 - 7 * Z.of_nat (S f) =? 63) && negb (v =? 0) && negb (v =? 1) = false).
    { destruct (Z.eqb_spec (70 - 7 * Z.of_nat (S f)) 63); [|reflexivity].
      assert (f = O) by lia. subst f. simpl in Hv.
      destruct (Z.eqb_spec v 0), (Z.eqb_spec v 1); simpl; try reflexivity; lia. }
    rewrite Hc.
    assert (Hl : Z.land v 128 = 0).
    { rewrite <- Hb, <- Z.land_assoc. change (Z.land 127 128) with 0. apply Z.land_0_r. }
    rewrite Hl, Hb. reflexivity.
  - assert (Hf1 : (1 <= f)%nat).
    { destruct f; [|lia]. exfalso. simpl in Hv. apply E.
      rewrite Z.shiftr_div_pow2 by lia. apply Z.div_small; lia. }
    cbn [app leb128_read_n].
    set (b := Z.lor (Z.land v 127) 128).
    assert (Hb127 : Z.land b 127 = Z.land v 127).
    { subst b. rewrite Z.land_lor_distr_l. rewrite <- Z.land_assoc.
      change (Z.land 127 127) with 127. change (Z.land 128 127) with 0.
      apply Z.lor_0_r. }
    assert (Hb128 : Z.land b 128 = 128).
    { subst b. rewrite Z.land_lor_distr_l.
      change (Z.land 128 128) with 128.
      rewrite <- Z.land_assoc. change (Z.land 127 128) with 0. rewrite Z.land_0_r. reflexivity. }
    assert (Hc : (70 - 7 * Z.of_nat (S f) =? 63) && negb (b =? 0) && negb (b =? 1) = false).
    { destruct (Z.eqb_spec (70 - 7 * Z.of_nat (S f)) 63); [lia|reflexivity]. }
    rewrite Hc, Hb127, Hb128. cbn [Z.eqb].
    replace (70 - 7 * Z.of_nat (S f) + 7) with (70 - 7 * Z.of_nat f) by lia.
    assert (Hv' : 0 <= Z.shiftr v 7 < 2 ^ (7 * Z.of_nat f - 6)).
    { rewrite Z.shiftr_div_pow2 by lia. split; [apply Z.div_pos; lia|].
      apply Z.div_lt_upper_bound; [lia|].
      rewrite <- Z.pow_add_r by lia. replace (2 ^ 7 * 2 ^ (7 * Z.of_nat f - 6)) with
        (2 ^ (7 + (7 * Z.of_nat f - 6))) by (rewrite Z.pow_add_r; lia).
      replace (7 + (7 * Z.of_nat f - 6)) with (7 * Z.of_nat (S f) - 6) by lia. lia. }
    assert (Hr' : 0 <= Z.lor result (Z.shiftl (Z.land v 127) (70 - 7 * Z.of_nat (S f)))
                  < 2 ^ (70 - 7 * Z.of_nat f)).
    { assert (H127 : 0 <= Z.land v 127 < 2 ^ 7).
      { change 127 with (Z.ones 7). rewrite Z.land_ones by lia.
        apply Z.mod_pos_bound; lia. }
      set (k := 70 - 7 * Z.of_nat (S f)) in *.
      assert (Hs : 0 <= Z.shiftl (Z.land v 127) k < 2 ^ (70 - 7 * Z.of_nat f)).
      { rewrite Z.shiftl_mul_pow2 by lia.
        replace (70 - 7 * Z.of_nat f) with (7 + k) by lia.
        rewrite Z.pow_add_r by lia. nia. }
      assert (Hpow : 2 ^ k <= 2 ^ (70 - 7 * Z.of_nat f)) by (apply Z.pow_le_mono_r; lia).
      split; [apply Z.lor_nonneg; lia|].
      destruct (Z.eq_dec (Z.lor result (Z.shiftl (Z.land v 127) k)) 0) as [E0|E0]; [rewrite E0; lia|].
      apply Z.log2_lt_pow2; [pose proof (Z.lor_nonneg result (Z.shiftl (Z.land v 127) k)); lia|].
      rewrite Z.log2_lor by lia.
      apply Z.max_lub_lt.
      - destruct (Z.eq_dec result 0) as [->|]; [change (Z.log2 0) with 0; lia|].
        apply Z.log2_lt_pow2; lia.
      - destruct (Z.eq_dec (Z.shiftl (Z.land v 127) k) 0) as [->|]; [change (Z.log2 0) with 0; lia|].
        apply Z.log2_lt_pow2; lia. }
    rewrite (IH (Z.shiftr v 7) _ ltac:(lia) Hv' Hr').
    f_equal. f_equal.
    rewrite <- Z.lor_assoc. f_equal.
    apply Z.bits_inj'; intros n Hn.
    rewrite Z.lor_spec.
    set (k := 70 - 7 * Z.of_nat (S f)).
    replace (70 - 7 * Z.of_nat f) with (k + 7) by (subst k; lia).
    destruct (Z.ltb_spec n k).
    + rewrite (Z.shiftl_spec_low (Z.land v 127)), (Z.shiftl_spec_low (Z.shiftr v 7)),
        (Z.shiftl_spec_low v) by lia. reflexivity.
    + rewrite (Z.shiftl_spec_high (Z.land v 127)), (Z.shiftl_spec_high v) by lia.
      rewrite Z.land_spec. change 127 with (Z.ones 7).
      destruct (Z.ltb_spec (n - k) 7).
      * rewrite (Z.shiftl_spec_low (Z.shiftr v 7)) by lia.
        rewrite Z.ones_spec_low by lia. rewrite andb_true_r, orb_false_r. reflexivity.
      * rewrite (Z.shiftl_spec_high (Z.shiftr v 7)) by lia.
        rewrite Z.ones_spec_high by lia. rewrite andb_false_r, orb_false_l.
        rewrite Z.shiftr_spec by lia. f_equal; lia.
Qed.

Lemma leb128_roundtrip v rest :
  0 <= v < 2 ^ 64 -> leb128_read (leb128_write v ++ rest) = Ok (v, rest).
Proof.
  intros Hv. unfold leb128_read, leb128_write.
  pose proof (leb128_roundtrip_n 10 v 0 rest) as H. simpl Z.of_nat in H.
  replace (70 - 7 * 10) with 0 in H by lia. rewrite H by (simpl; lia).
  rewrite Z.shiftl_0_r, Z.lor_0_l. reflexivity.
Qed.

Lemma leb128_write_nonempty v : leb128_write v <> [].
Proof. unfold leb128_write; cbn [leb128_write_n]. destruct (Z.shiftr v 7 =? 0); discriminate. Qed.

(** ** Position codec: bytes, nibbles and piece codes *)

Lemma from_be_bytes_gen v n a :
  0 <= v ->
  fold_left (fun acc byte => acc * 256 + byte)
    (map (fun k => Z.land (Z.shiftr v (8 * Z.of_nat k)) 255) (rev (seq 0 n))) a
  = a * 2 ^ (8 * Z.of_nat n) + v mod 2 ^ (8 * Z.of_nat n).
Proof.
  intros Hv. revert a. induction n as [|n IH]; intros a.
  - simpl. rewrite Z.mod_1_r. lia.
  - rewrite seq_S, rev_app_distr. simpl rev at 1. cbn [app map fold_left].
    rewrite IH.
    change 255 with (Z.ones 8). rewrite Z.land_ones by lia.
    rewrite Z.shiftr_div_pow2 by lia.
    replace (8 * Z.of_nat (S n)) with (8 * Z.of_nat n + 8) by lia.
    rewrite Z.pow_add_r by lia.
    rewrite (Z.rem_mul_r v (2 ^ (8 * Z.of_nat n)) (2 ^ 8)) by lia.
    change (2 ^ 8) with 256. ring.
Qed.

Lemma from_to_be_bytes v rest :
  0 <= v < 2 ^ 64 -> from_be_bytes (firstn 8 (to_be_bytes v ++ rest)) = v.
Proof.
  intros Hv.
  assert (Hl : length (to_be_bytes v) = 8%nat) by reflexivity.
  rewrite firstn_app, Hl, Nat.sub_diag, firstn_O, app_nil_r.
  rewrite <- Hl, firstn_all.
  unfold from_be_bytes, to_be_bytes.
  rewrite from_be_bytes_gen by lia. simpl Z.of_nat.
  rewrite Z.mod_small by lia. lia.
Qed.

Lemma nibble_low a b : 0 <= a < 16 -> 0 <= b < 16 ->
  Z.land (Z.lor (Z.shiftl b 4) a) 15 = a.
Proof.
  intros Ha Hb. apply Z.bits_inj'; intros n Hn.
  rewrite Z.land_spec, Z.lor_spec. change 15 with (Z.ones 4).
  destruct (Z.ltb_spec n 4).
  - rewrite Z.ones_spec_low, Z.shiftl_spec_low by lia. apply andb_true_r.
  - rewrite Z.ones_spec_high by lia. rewrite andb_false_r.
    rewrite <- (Z.mod_small a (2 ^ 4)) by (simpl; lia).
    rewrite Z.mod_pow2_bits_high by lia. reflexivity.
Qed.

Lemma nibble_high a b : 0 <= a < 16 -> 0 <= b < 16 ->
  Z.shiftr (Z.land (Z.lor (Z.shiftl b 4) a) 240) 4 = b.
Proof.
  intros Ha Hb. apply Z.bits_inj'; intros n Hn.
  rewrite Z.shiftr_spec, Z.land_spec, Z.lor_spec by lia.
  rewrite Z.shiftl_spec_high by lia.
  replace (n + 4 - 4) with n by lia.
  rewrite <- (Z.mod_small a (2 ^ 4)) by (simpl; lia).
  rewrite Z.mod_pow2_bits_high by lia. rewrite orb_false_r.
  destruct (Z.ltb_spec n 4).
  - replace (Z.testbit 240 (n + 4)) with true; [apply andb_true_r|].
    assert (n = 0 \/ n = 1 \/ n = 2 \/ n = 3) as [-> | [-> | [-> | ->]]] by lia; reflexivity.
  - rewrite <- (Z.mod_small b (2 ^ 4)) by (simpl; lia).
    rewrite Z.mod_pow2_bits_high by lia. reflexivity.
Qed.

Lemma nibble_byte_range a b : 0 <= a < 16 -> 0 <= b < 16 ->
  0 <= Z.lor (Z.shiftl b 4) a < 256.
Proof.
  intros Ha Hb.
  assert (Hd : Z.land (Z.shiftl b 4) a = 0).
  { apply Z.bits_inj'; intros n Hn. rewrite Z.land_spec, Z.bits_0.
    destruct (Z.ltb_spec n 4).
    - rewrite Z.shiftl_spec_low by lia. reflexivity.
    - rewrite <- (Z.mod_small a (2 ^ 4)) by (simpl; lia).
      rewrite Z.mod_pow2_bits_high by lia. apply andb_false_r. }
  assert (E : Z.lor (Z.shiftl b 4) a = b * 16 + a).
  { rewrite <- (Z.lxor_lor _ _ Hd), <- (Z.add_nocarry_lxor _ _ Hd).
    rewrite Z.shiftl_mul_pow2 by lia. reflexivity. }
  rewrite E. lia.
Qed.

Lemma pack_nibbles_length value l :
  length (pack_nibbles value l) = ((length l + 1) / 2)%nat.
Proof.
  remember (length l) as n eqn:Hn. revert l Hn.
  induction n as [n IH] using (well_founded_induction lt_wf).
  intros [|x [|y l]] Hn; cbn [length pack_nibbles] in *; subst; try reflexivity.
  rewrite (IH (length l)) by (auto; lia).
  replace (S (S (length l)) + 1)%nat with ((length l + 1) + 1 * 2)%nat by lia.
  rewrite Nat.div_add by lia. lia.
Qed.

Lemma piece_value_code p q bt ur pp :
  (bb_contains pp q = true -> piece_role p = Pawn ->
   piece_color p = if bb_contains SOUTH q then White else Black) ->
  0 <= piece_value p q bt ur pp < 16 /\
  piece_from_value (piece_value p q bt ur pp) q = Ok p.
Proof.
  intros H. destruct p as [c r]. unfold piece_value; cbn [piece_role piece_color] in *.
  destruct r;
    [destruct (bb_contains pp q) eqn:E;
       [rewrite (H eq_refl eq_refl); split; [lia|reflexivity]|] | | | | |];
    destruct c; try destruct (bb_contains ur q); try destruct bt;
    split; try lia; reflexivity.
Qed.

Lemma decode_square_step (bytes : list Z) (setup : Setup) (i : nat) (byte : Z) (rm : bool)
  (q : Square) (p : Piece) (v byte' : Z) (i' : nat) (e0 : Square) :
  (if rm then nth_error bytes i = Some byte' /\ i' = S i /\ v = Z.land byte' 15
   else byte' = byte /\ i' = i /\ v = Z.shiftr (Z.land byte 240) 4) ->
  piece_from_value v q = Ok p ->
  (v = 12 -> sq_offset q (if bb_contains SOUTH q then -8 else 8) = Some e0) ->
  decode_square bytes (mkDecState setup i byte rm) q
  = Ok (mkDecState
          (mkSetup (set_piece_at (board setup) q p)
             (if v =? 15 then Black else turn setup)
             (if (v =? 13) || (v =? 14) then Z.lor (castling_rights setup) (bb_of q)
              else castling_rights setup)
             (if v =? 12 then Some e0 else ep_square setup)
             (halfmoves setup) (fullmoves setup))
          i' byte' (negb rm)).
Proof.
  intros Hr Hp H12. unfold decode_square.
  destruct rm.
  - destruct Hr as [Hn [-> ->]]. rewrite Hn. cbn [bind]. rewrite Hp. cbn [bind].
    destruct (Z.eqb_spec (Z.land byte' 15) 12) as [E|E].
    + rewrite (H12 E). cbn [bind]. rewrite E. reflexivity.
    + destruct ((Z.land byte' 15 =? 13) || (Z.land byte' 15 =? 14)) eqn:E13.
      * cbn [bind]. apply orb_true_iff in E13.
        destruct (Z.eqb_spec (Z.land byte' 15) 15); [destruct E13 as [E13|E13]; apply Z.eqb_eq in E13; lia|].
        reflexivity.
      * destruct (Z.eqb_spec (Z.land byte' 15) 15); reflexivity.
  - destruct Hr as [-> [-> ->]]. cbn [bind]. rewrite Hp. cbn [bind].
    destruct (Z.eqb_spec (Z.shiftr (Z.land byte 240) 4) 12) as [E|E].
    + rewrite (H12 E). cbn [bind]. rewrite E. reflexivity.
    + destruct ((Z.shiftr (Z.land byte 240) 4 =? 13) || (Z.shiftr (Z.land byte 240) 4 =? 14)) eqn:E13.
      * cbn [bind]. apply orb_true_iff in E13.
        destruct (Z.eqb_spec (Z.shiftr (Z.land byte 240) 4) 15);
          [destruct E13 as [E13|E13]; apply Z.eqb_eq in E13; lia|].
        reflexivity.
      * destruct (Z.eqb_spec (Z.shiftr (Z.land byte 240) 4) 15); reflexivity.
Qed.

Section DecodeLoop.
Variable value : Square * Piece -> Z.
Variable e0 : Square.


Lemma decode_squares_pack L bytes rest setup i byte :
  (forall x, In x L -> 0 <= value x < 16 /\ piece_from_value (value x) (fst x) = Ok (snd x)) ->
  (forall x, In x L -> value x = 12 ->
     sq_offset (fst x) (if bb_contains SOUTH (fst x) then -8 else 8) = Some e0) ->
  skipn i bytes = pack_nibbles value L ++ rest ->
  exists byte',
    decode_squares bytes (mkDecState setup i byte true) (map fst L)
    = Ok (mkDecState (fold_left (step_setup value e0) L setup)
            (i + (length L + 1) / 2) byte' (Nat.even (length L))).
Proof.
  remember (length L) as n eqn:Hn. revert L Hn setup i byte.
  induction n as [n IH] using (well_founded_induction lt_wf).
  intros [|x [|y L]] Hn setup i byte Hv H12 Hb; cbn [length] in Hn; subst n.
  - exists byte. simpl. f_equal. f_equal. lia.
  - destruct (Hv x (or_introl eq_refl)) as [Hx Hpx].
    exists (value x). cbn [map decode_squares pack_nibbles] in *.
    assert (Hn : nth_error bytes i = Some (value x)).
    { rewrite <- (Nat.add_0_r i), <- (nth_error_skipn i bytes 0), Hb. reflexivity. }
    rewrite (decode_square_step bytes setup i byte true (fst x) (snd x) (value x)
               (value x) (S i) e0).
    + cbn [bind]. simpl. f_equal. f_equal. lia.
    + split; [exact Hn|]. split; [reflexivity|].
      change 15 with (Z.ones 4). rewrite Z.land_ones by lia. rewrite Z.mod_small; [reflexivity|].
      change (2 ^ 4) with 16. exact Hx.
    + exact Hpx.
    + apply H12; simpl; auto.
  - destruct (Hv x (or_introl eq_refl)) as [Hx Hpx].
    destruct (Hv y (or_intror (or_introl eq_refl))) as [Hy Hpy].
    set (B := Z.lor (Z.shiftl (value y) 4) (value x)).
    cbn [map decode_squares pack_nibbles] in *.
    assert (Hn : nth_error bytes i = Some B).
    { rewrite <- (Nat.add_0_r i), <- (nth_error_skipn i bytes 0), Hb. reflexivity. }
    rewrite (decode_square_step bytes setup i byte true (fst x) (snd x) (value x) B (S i) e0).
    2: { split; [exact Hn|]. split; [reflexivity|]. symmetry. apply nibble_low; lia. }
    2: exact Hpx.
    2: { apply H12; simpl; auto. }
    cbn [bind negb].
    rewrite (decode_square_step bytes _ (S i) B false (fst y) (snd y) (value y) B (S i) e0).
    2: { split; [reflexivity|]. split; [reflexivity|]. symmetry. apply nibble_high; lia. }
    2: exact Hpy.
    2: { apply H12; simpl; auto. }
    cbn [bind negb].
    assert (Hb' : skipn (S i) bytes = pack_nibbles value L ++ rest).
    { replace (S i) with (1 + i)%nat by lia. rewrite <- skipn_skipn, Hb. reflexivity. }
    destruct (IH (length L) ltac:(lia) L eq_refl (step_setup value e0 (step_setup value e0 setup x) y) (S i) B)
      as [byte' Hrec].
    + intros z Hz; apply Hv; simpl; auto.
    + intros z Hz; apply H12; simpl; auto.
    + exact Hb'.
    + exists byte'. etransitivity; [exact Hrec|]. cbn [fold_left length]. f_equal. f_equal.
      replace (S (S (length L)) + 1)%nat with ((length L + 1) + 1 * 2)%nat by lia.
      rewrite Nat.div_add by lia. lia.
Qed.
End DecodeLoop.

(** ** Position codec: boards and bitboards *)

Lemma all_squares_index : map sq_index all_squares = seq 0 64.
Proof. vm_compute. reflexivity. Qed.

Lemma all_squares_nodup : NoDup all_squares.
Proof.
  apply (NoDup_map_inv sq_index). rewrite all_squares_index. apply seq_NoDup.
Qed.

Lemma bb_of_bit s n : Z.testbit (bb_of s) n = (sq_z s =? n).
Proof.
  unfold bb_of. pose proof (sq_z_range s).
  destruct (Z.ltb_spec n 0).
  - rewrite Z.testbit_neg_r by lia. symmetry; apply Z.eqb_neq; lia.
  - rewrite Z.shiftl_1_l, Z.pow2_bits_eqb by lia. reflexivity.
Qed.

Lemma occupied_fold_bits b L n :
  Z.testbit (fold_right (fun s acc => match piece_at b s with
                                      | Some _ => Z.lor (bb_of s) acc
                                      | None => acc end) 0 L) n
  = existsb (fun s => match piece_at b s with Some _ => true | None => false end
                      && (sq_z s =? n)) L.
Proof.
  induction L as [|s L IH]; simpl.
  - apply Z.bits_0.
  - destruct (piece_at b s); simpl; [|exact IH].
    rewrite Z.lor_spec, IH, bb_of_bit. reflexivity.
Qed.

Lemma fold_lor_bits {A} (c : A -> bool) (sqf : A -> Square) L cr0 n :
  Z.testbit (fold_left (fun cr x => if c x then Z.lor cr (bb_of (sqf x)) else cr) L cr0) n
  = Z.testbit cr0 n || existsb (fun x => c x && (sq_z (sqf x) =? n)) L.
Proof.
  revert cr0. induction L as [|x L IH]; intros cr0; simpl.
  - rewrite orb_false_r. reflexivity.
  - rewrite IH. destruct (c x); simpl.
    + rewrite Z.lor_spec, bb_of_bit. rewrite orb_assoc. reflexivity.
    + reflexivity.
Qed.

Lemma existsb_square (f : Square -> bool) q :
  existsb (fun s => f s && (sq_z s =? sq_z q)) all_squares = f q.
Proof.
  destruct (f q) eqn:Hq.
  - apply existsb_exists. exists q. split; [apply all_squares_complete|].
    rewrite Hq, Z.eqb_refl. reflexivity.
  - apply not_true_iff_false. intros H. apply existsb_exists in H as [s [_ Hs]].
    apply andb_true_iff in Hs as [Hs E]. apply Z.eqb_eq, sq_z_inj in E. subst. congruence.
Qed.

Lemma occupied_bits b q :
  bb_contains (occupied b) q = match piece_at b q with Some _ => true | None => false end.
Proof.
  unfold bb_contains, occupied. rewrite occupied_fold_bits.
  apply (existsb_square (fun s => match piece_at b s with Some _ => true | None => false end)).
Qed.

Lemma lor_lt_pow2 a c n : 0 <= n -> 0 <= a < 2 ^ n -> 0 <= c < 2 ^ n -> 0 <= Z.lor a c < 2 ^ n.
Proof.
  intros Hn Ha Hc. split; [apply Z.lor_nonneg; lia|].
  destruct (Z.eq_dec a 0) as [-> | Ea]; [rewrite Z.lor_0_l; lia|].
  destruct (Z.eq_dec c 0) as [-> | Ec]; [rewrite Z.lor_0_r; lia|].
  assert (Hp : 0 < Z.lor a c).
  { pose proof (Z.lor_nonneg a c). destruct (Z.eq_dec (Z.lor a c) 0) as [E|]; [|lia].
    apply Z.lor_eq_0_iff in E. lia. }
  apply (proj2 (Z.log2_lt_pow2 _ _ Hp)).
  rewrite Z.log2_lor by lia. apply Z.max_lub_lt.
  - apply (proj1 (Z.log2_lt_pow2 a n ltac:(lia))); lia.
  - apply (proj1 (Z.log2_lt_pow2 c n ltac:(lia))); lia.
Qed.

Lemma bb_of_range s : 0 <= bb_of s < 2 ^ 64.
Proof.
  unfold bb_of. pose proof (sq_z_range s). rewrite Z.shiftl_1_l.
  split; [apply Z.pow_nonneg; lia | apply Z.pow_lt_mono_r; lia].
Qed.

Lemma occupied_range b : 0 <= occupied b < 2 ^ 64.
Proof.
  unfold occupied. induction all_squares as [|s L IH]; simpl; [lia|].
  destruct (piece_at b s); [|exact IH].
  change (Z.pow_pos 2 64) with (2 ^ 64).
  apply lor_lt_pow2; [lia| apply bb_of_range | exact IH].
Qed.

Lemma board_iter_iff b q p : In (q, p) (board_iter b) <-> piece_at b q = Some p.
Proof.
  split; [apply board_iter_in|].
  intros H. unfold board_iter. apply in_flat_map. exists q.
  split; [apply all_squares_complete|]. rewrite H. left; reflexivity.
Qed.

Lemma board_iter_squares b :
  map fst (board_iter b) = filter (fun s => match piece_at b s with Some _ => true | None => false end) all_squares.
Proof.
  unfold board_iter. induction all_squares as [|s L IH]; simpl; [reflexivity|].
  destruct (piece_at b s); simpl; rewrite <- IH; reflexivity.
Qed.

Lemma bb_squares_occupied b : bb_squares (occupied b) = map fst (board_iter b).
Proof.
  rewrite board_iter_squares. unfold bb_squares. apply filter_ext. apply occupied_bits.
Qed.

Lemma board_iter_nodup b : NoDup (map fst (board_iter b)).
Proof.
  rewrite board_iter_squares. apply NoDup_filter, all_squares_nodup.
Qed.

Lemma list_set_length {A} (l : list A) i x : length (list_set l i x) = length l.
Proof.
  revert i; induction l as [|y l IH]; intros [|i]; simpl; auto.
Qed.

Lemma nth_list_set {A} (l : list A) i j x d :
  (i < length l)%nat -> nth j (list_set l i x) d = if Nat.eqb i j then x else nth j l d.
Proof.
  revert i j; induction l as [|y l IH]; intros [|i] [|j] Hi; simpl in *; try lia; auto.
  apply IH; lia.
Qed.


Lemma set_all_length L b0 : length (set_all L b0) = length b0.
Proof.
  unfold set_all. revert b0; induction L as [|x L IH]; intros b0; simpl; auto.
  rewrite IH. unfold set_piece_at. apply list_set_length.
Qed.

Lemma sq_index_lt s : (sq_index s < 64)%nat.
Proof. destruct s as [i Hi]; simpl; apply Nat.ltb_lt; exact Hi. Qed.

Lemma set_all_piece_at b L b0 q :
  length b0 = 64%nat ->
  (forall q' p, In (q', p) L -> piece_at b q' = Some p) ->
  piece_at (set_all L b0) q
  = if existsb (fun x => sq_z (fst x) =? sq_z q) L then piece_at b q else piece_at b0 q.
Proof.
  unfold set_all. revert b0; induction L as [|[q' p] L IH]; intros b0 Hl HL; simpl; auto.
  rewrite IH.
  2: { unfold set_piece_at; rewrite list_set_length; exact Hl. }
  2: { intros; apply HL; simpl; auto. }
  destruct (existsb _ L); [rewrite orb_true_r; reflexivity|rewrite orb_false_r].
  unfold piece_at at 1, set_piece_at. rewrite nth_list_set by (pose proof (sq_index_lt q'); lia).
  destruct (Z.eqb_spec (sq_z q') (sq_z q)) as [E|E].
  - apply sq_z_inj in E; subst q'. rewrite Nat.eqb_refl. symmetry; apply HL; simpl; auto.
  - destruct (Nat.eqb_spec (sq_index q') (sq_index q)) as [E'|E']; [|reflexivity].
    exfalso; apply E; unfold sq_z; rewrite E'; reflexivity.
Qed.

Lemma existsb_pointwise {A} (f g : A -> bool) l :
  (forall x, In x l -> f x = g x) -> existsb f l = existsb g l.
Proof.
  induction l as [|x l IH]; intros H; simpl; auto.
  rewrite H by (simpl; auto). rewrite IH by (intros; apply H; simpl; auto). reflexivity.
Qed.

Lemma existsb_board_iter b (g : Square * Piece -> bool) q :
  existsb (fun x => g x && (sq_z (fst x) =? sq_z q)) (board_iter b)
  = match piece_at b q with Some p => g (q, p) | None => false end.
Proof.
  destruct (existsb _ _) eqn:E.
  - apply existsb_exists in E as [[q' p] [Hin Hx]].
    apply andb_true_iff in Hx as [Hg Hq]. apply Z.eqb_eq, sq_z_inj in Hq. simpl in Hq; subst q'.
    apply board_iter_iff in Hin. rewrite Hin. symmetry; exact Hg.
  - destruct (piece_at b q) as [p|] eqn:Hp; [|reflexivity].
    destruct (g (q, p)) eqn:Hg; [|reflexivity].
    rewrite <- E. apply existsb_exists. exists (q, p).
    split; [apply board_iter_iff; exact Hp|]. simpl. rewrite Hg, Z.eqb_refl. reflexivity.
Qed.

Lemma square_at (i : nat) : (i < 64)%nat -> exists q, sq_index q = i.
Proof.
  intros Hi. pose proof (square_of_Z_spec (Z.of_nat i)) as H.
  destruct (square_of_Z (Z.of_nat i)) as [q|]; [|lia].
  exists q. unfold sq_z in H. lia.
Qed.

Lemma set_all_board_iter b : length b = 64%nat -> set_all (board_iter b) (repeat None 64) = b.
Proof.
  intros Hl. apply nth_ext with (d := None) (d' := None).
  { rewrite set_all_length, repeat_length, Hl; reflexivity. }
  intros i Hi. rewrite set_all_length, repeat_length in Hi.
  destruct (square_at i Hi) as [q <-].
  change (piece_at (set_all (board_iter b) (repeat None 64)) q = piece_at b q).
  rewrite (set_all_piece_at b) by (rewrite ?repeat_length; auto; apply board_iter_in).
  pose proof (existsb_board_iter b (fun _ => true) q) as E. cbn beta in E.
  rewrite (existsb_pointwise _ (fun x => true && (sq_z (fst x) =? sq_z q))) by reflexivity.
  rewrite E. destruct (piece_at b q) eqn:Hp; [reflexivity|].
  unfold piece_at. rewrite nth_repeat. reflexivity.
Qed.

(** The fields of the setup the decoding loop builds. *)
Lemma fold_step_setup value e0 L s0 :
  fold_left (step_setup value e0) L s0
  = mkSetup (set_all L (board s0))
      (if existsb (fun x => value x =? 15) L then Black else turn s0)
      (fold_left (fun cr x => if (value x =? 13) || (value x =? 14)
                              then Z.lor cr (bb_of (fst x)) else cr) L (castling_rights s0))
      (if existsb (fun x => value x =? 12) L then Some e0 else ep_square s0)
      (halfmoves s0) (fullmoves s0).
Proof.
  unfold set_all. revert s0; induction L as [|x L IH]; intros s0; simpl.
  - destruct s0; reflexivity.
  - rewrite IH. clear IH. unfold step_setup; cbn [board turn castling_rights ep_square halfmoves fullmoves].
    f_equal.
    + destruct (existsb _ L), (value x =? 15); reflexivity.
    + destruct (existsb _ L), (value x =? 12); reflexivity.
Qed.

Lemma value12 p q bt cr pp :
  (piece_value p q bt cr pp =? 12) = Role_beq (piece_role p) Pawn && bb_contains pp q.
Proof.
  destruct p as [c r]; unfold piece_value; cbn [piece_role piece_color].
  destruct r, c; try destruct (bb_contains pp q); try destruct (bb_contains cr q);
    try destruct bt; reflexivity.
Qed.

Lemma value15 p q bt cr pp :
  (piece_value p q bt cr pp =? 15)
  = bt && Color_beq (piece_color p) Black && Role_beq (piece_role p) King.
Proof.
  destruct p as [c r]; unfold piece_value; cbn [piece_role piece_color].
  destruct r, c; try destruct (bb_contains pp q); try destruct (bb_contains cr q);
    try destruct bt; reflexivity.
Qed.

Lemma value1314 p q bt cr pp :
  (piece_value p q bt cr pp =? 13) || (piece_value p q bt cr pp =? 14)
  = Role_beq (piece_role p) Rook && bb_contains cr q.
Proof.
  destruct p as [c r]; unfold piece_value; cbn [piece_role piece_color].
  destruct r, c; try destruct (bb_contains pp q); try destruct (bb_contains cr q);
    try destruct bt; reflexivity.
Qed.

Lemma u32_checked_ok z : 0 <= z < 2 ^ 32 -> u32_checked z = Ok z.
Proof.
  intros Hz. unfold u32_checked.
  destruct (Z.leb_spec 0 z), (Z.ltb_spec z (2 ^ 32)); simpl; auto; lia.
Qed.

Lemma SOUTH_bit q : bb_contains SOUTH q = (sq_z q <? 32).
Proof.
  unfold bb_contains, SOUTH. pose proof (sq_z_range q).
  change (2 ^ 32 - 1) with (Z.ones 32). rewrite Z.testbit_ones by lia.
  destruct (Z.ltb_spec (sq_z q) 32); destruct (Z.leb_spec 0 (sq_z q)); simpl; auto; lia.
Qed.

Lemma sq_offset_spec s d :
  0 <= sq_z s + d < 64 -> exists t, sq_offset s d = Some t /\ sq_z t = sq_z s + d.
Proof.
  intros H. unfold sq_offset. pose proof (square_of_Z_spec (sq_z s + d)) as Hs.
  destruct (square_of_Z (sq_z s + d)) as [t|]; [|lia]. eauto.
Qed.

Lemma to_be_bytes_length v : length (to_be_bytes v) = 8%nat.
Proof. unfold to_be_bytes. rewrite length_map. reflexivity. Qed.

(** ** Position codec: round trip *)




Lemma skipn_exact {A} (l1 l2 : list A) k : length l1 = k -> skipn k (l1 ++ l2) = l2.
Proof. intros <-. induction l1; simpl; auto. Qed.

Lemma existsb_false {A} (f : A -> bool) l : (forall x, In x l -> f x = false) -> existsb f l = false.
Proof.
  intros H. apply not_true_iff_false. intros E. apply existsb_exists in E as [x [Hx E]].
  rewrite H in E by exact Hx. discriminate.
Qed.

Lemma Role_beq_true r s : Role_beq r s = true -> r = s.
Proof. unfold Role_beq. destruct (Role_eq_dec r s); auto; discriminate. Qed.

Lemma ep_part P :
  ep_consistent P = true ->
  exists pp e0, pushed_to_bb P = Ok pp /\
    (forall q p, piece_at (board P) q = Some p -> piece_role p = Pawn -> bb_contains pp q = true ->
       piece_color p = (if bb_contains SOUTH q then White else Black)
       /\ sq_offset q (if bb_contains SOUTH q then -8 else 8) = Some e0) /\
    existsb (fun x => Role_beq (piece_role (snd x)) Pawn && bb_contains pp (fst x))
      (board_iter (board P))
    = match ep_decoded P with Some _ => true | None => false end /\
    (forall e, ep_decoded P = Some e -> e = e0).
Proof.
  destruct P as [b t cr ep hm fm]. unfold ep_consistent, ep_decoded, pushed_to_bb.
  cbn [board turn castling_rights ep_square halfmoves fullmoves].
  destruct ep as [e|]; intros Hep.
  - pose proof (sq_z_range e) as He.
    assert (Hs : exists s, sq_offset e (match t with Black => 8 | White => -8 end) = Some s
                 /\ sq_z s = sq_z e + match t with Black => 8 | White => -8 end
                 /\ sq_z s / 8 = match t with Black => 3 | White => 4 end).
    { apply andb_true_iff in Hep as [Hr _]. apply Z.eqb_eq in Hr. unfold sq_rank in Hr.
      destruct (sq_offset_spec e (match t with Black => 8 | White => -8 end)) as [s [Hs1 Hs2]];
        [destruct t; Z.div_mod_to_equations; lia|].
      exists s; split; [exact Hs1|]; split; [exact Hs2|]; rewrite Hs2.
      destruct t; Z.div_mod_to_equations; lia. }
    destruct Hs as [s [Hs [Hsz Hsr]]]. rewrite Hs in Hep |- *.
    apply andb_true_iff in Hep as [_ Hps].
    exists (bb_of s), e. split; [reflexivity|]. split; [|split].
    + intros q p Hq Hr Hc. unfold bb_contains in Hc. rewrite bb_of_bit in Hc.
      apply Z.eqb_eq, sq_z_inj in Hc. subst q.
      rewrite Hq, Hr in Hps. cbn [Role_beq negb orb] in Hps.
      rewrite SOUTH_bit.
      destruct (Z.ltb_spec (sq_z s) 32).
      * assert (t = Black) by (destruct t; auto; Z.div_mod_to_equations; lia). subst t.
        destruct (piece_color p); try discriminate. split; [reflexivity|].
        destruct (sq_offset_spec s (-8)) as [e' [He1 He2]]; [lia|].
        rewrite He1. f_equal. apply sq_z_inj. lia.
      * assert (t = White) by (destruct t; auto; Z.div_mod_to_equations; lia). subst t.
        destruct (piece_color p); try discriminate. split; [reflexivity|].
        destruct (sq_offset_spec s 8) as [e' [He1 He2]]; [lia|].
        rewrite He1. f_equal. apply sq_z_inj. lia.
    + rewrite (existsb_pointwise _ (fun x => Role_beq (piece_role (snd x)) Pawn && (sq_z (fst x) =? sq_z s))).
      * rewrite existsb_board_iter. destruct (piece_at b s) as [p|]; [|reflexivity].
        cbn [snd]. destruct (Role_beq (piece_role p) Pawn); reflexivity.
      * intros x _. unfold bb_contains. rewrite bb_of_bit, Z.eqb_sym. reflexivity.
    + intros e'. destruct (piece_at b s) as [p|]; [|discriminate].
      destruct (Role_beq (piece_role p) Pawn); [|discriminate]. intros H; injection H; auto.
  - exists 0, (sq 0). split; [reflexivity|]. split; [|split].
    + intros q p _ _ Hc. unfold bb_contains in Hc. rewrite Z.testbit_0_l in Hc. discriminate.
    + apply existsb_false. intros x _. unfold bb_contains. rewrite Z.testbit_0_l, andb_false_r.
      reflexivity.
    + discriminate.
Qed.

Lemma castling_fold b cr (value : Square * Piece -> Z) :
  0 <= cr < 2 ^ 64 ->
  castling_on_rooks (mkSetup b White cr None 0 1) = true ->
  (forall q p, In (q, p) (board_iter b) ->
     (value (q, p) =? 13) || (value (q, p) =? 14) = Role_beq (piece_role p) Rook && bb_contains cr q) ->
  fold_left (fun c x => if (value x =? 13) || (value x =? 14) then Z.lor c (bb_of (fst x)) else c)
    (board_iter b) 0 = cr.
Proof.
  intros Hcr Hrooks Hv. apply Z.bits_inj'. intros n Hn.
  rewrite (fold_lor_bits (fun x => (value x =? 13) || (value x =? 14)) fst), Z.bits_0.
  cbn [orb].
  destruct (Z.ltb_spec n 64).
  - destruct (square_at (Z.to_nat n)) as [q Hq]; [lia|].
    replace n with (sq_z q) by (unfold sq_z; lia).
    rewrite (existsb_pointwise _ (fun x => (Role_beq (piece_role (snd x)) Rook
                                            && bb_contains cr (fst x)) && (sq_z (fst x) =? sq_z q))).
    2: { intros [q' p] Hin. cbn [fst snd]. rewrite Hv by exact Hin. reflexivity. }
    rewrite existsb_board_iter.
    unfold castling_on_rooks in Hrooks; cbn [castling_rights board] in Hrooks.
    rewrite forallb_forall in Hrooks. specialize (Hrooks q (all_squares_complete q)).
    change (Z.testbit cr (sq_z q)) with (bb_contains cr q).
    destruct (piece_at b q); cbn [fst snd]; destruct (bb_contains cr q); cbn [negb orb] in *;
      rewrite ?andb_true_r, ?andb_false_r; auto; discriminate.
  - rewrite existsb_false.
    + rewrite <- (Z.mod_small cr (2 ^ 64)) by lia. rewrite Z.mod_pow2_bits_high by lia.
      reflexivity.
    + intros x _. pose proof (sq_z_range (fst x)). rewrite andb_comm.
      destruct (Z.eqb_spec (sq_z (fst x)) n); [lia|reflexivity].
Qed.

Lemma black_king_present b k :
  king_of b Black = Some k ->
  existsb (fun x => Color_beq (piece_color (snd x)) Black && Role_beq (piece_role (snd x)) King)
    (board_iter b) = true.
Proof.
  unfold king_of, kings_of.
  destruct (filter _ all_squares) as [|s [|s' l]] eqn:F; try discriminate.
  intros _.
  assert (Hs : In s (filter (fun s => match piece_at b s with
                   | Some p => Color_beq (piece_color p) Black && Role_beq (piece_role p) King
                   | None => false
                   end) all_squares)) by (rewrite F; left; reflexivity).
  apply filter_In in Hs as [_ Hs].
  destruct (piece_at b s) as [p|] eqn:Hp; [|discriminate].
  apply existsb_exists. exists (s, p). split; [apply board_iter_iff; exact Hp|exact Hs].
Qed.

(** Round trip of the position codec: for a 64-square board with clocks
    in range, castling rights only on rooks and a consistent en-passant
    square, [compress] succeeds and [decompress] gives back the position,
    with the en-passant square kept exactly when a pawn stands in front
    of it. *)
Theorem position_roundtrip P :
  length (board P) = 64%nat ->
  0 <= halfmoves P < 2 ^ 32 ->
  1 <= fullmoves P <= 2 ^ 31 ->
  0 <= castling_rights P < 2 ^ 64 ->
  castling_on_rooks P = true ->
  ep_consistent P = true ->
  exists out, compress P = Ok out /\
    decompress out = Ok (mkSetup (board P) (turn P) (castling_rights P) (ep_decoded P)
                           (halfmoves P) (fullmoves P)).
Proof.
  intros Hl Hhm Hfm Hcr Hrooks Hep.
  destruct (ep_part P Hep) as (pp & e0 & Hpp & Hpawn & Hex & He0).
  destruct P as [b t cr ep hm fm].
  cbn [board turn castling_rights ep_square halfmoves fullmoves] in *.
  set (bt := Color_beq t Black).
  set (value := (fun '(sq, piece) => piece_value piece sq bt cr pp) : Square * Piece -> Z).
  remember ((fm - 1) * 2 + match t with Black => 1 | White => 0 end) as ply eqn:Eply.
  remember ((if (0 <? hm) || (1 <? ply)
                || (Color_beq t Black && match king_of b Black with None => true | Some _ => false end)
             then leb128_write hm else [])
            ++ (if (1 <? ply)
                   || (Color_beq t Black && match king_of b Black with None => true | Some _ => false end)
                then leb128_write ply else [])) as clocks eqn:Eclocks.
  exists (to_be_bytes (occupied b) ++ pack_nibbles value (board_iter b) ++ clocks).
  split.
  { unfold compress, compress_board. cbn [board turn castling_rights ep_square halfmoves fullmoves].
    rewrite Hpp. cbn [bind].
    rewrite (u32_checked_ok (fm - 1)) by lia. cbn [bind].
    rewrite (u32_checked_ok ((fm - 1) * 2)) by lia. cbn [bind].
    rewrite (u32_checked_ok ((fm - 1) * 2 + match t with Black => 1 | White => 0 end))
      by (destruct t; lia).
    cbn [bind]. rewrite <- app_assoc, <- Eply, Eclocks. reflexivity. }
  unfold decompress.
  rewrite length_app, to_be_bytes_length.
  replace (Nat.ltb _ 8) with false by (symmetry; apply Nat.ltb_ge; lia).
  rewrite from_to_be_bytes by apply occupied_range.
  rewrite bb_squares_occupied.
  destruct (decode_squares_pack value e0 (board_iter b)
              (to_be_bytes (occupied b) ++ pack_nibbles value (board_iter b) ++ clocks)
              clocks Setup_empty 8 0) as [byte' Hd].
  { intros [q p] Hin. apply board_iter_in in Hin. cbn [fst snd value].
    apply piece_value_code. intros Hc Hr. apply (Hpawn q p Hin Hr Hc). }
  { intros [q p] Hin H12. apply board_iter_in in Hin. cbn [fst snd].
    apply Z.eqb_eq in H12. cbn [value] in H12. rewrite value12 in H12.
    apply andb_true_iff in H12 as [Hr Hc]. apply Role_beq_true in Hr.
    apply (Hpawn q p Hin Hr Hc). }
  { apply skipn_exact, to_be_bytes_length. }
  rewrite Hd. cbn [bind ds_setup ds_i].
  rewrite app_assoc, skipn_exact
    by (rewrite length_app, to_be_bytes_length, pack_nibbles_length; reflexivity).
  rewrite fold_step_setup. unfold Setup_empty.
  cbn [board turn castling_rights ep_square halfmoves fullmoves].
  rewrite set_all_board_iter by exact Hl.
  rewrite (castling_fold b cr value Hcr Hrooks).
  2: { intros q p _. cbn [value]. apply value1314. }
  rewrite (existsb_pointwise (fun x => value x =? 12)
             (fun x => Role_beq (piece_role (snd x)) Pawn && bb_contains pp (fst x))), Hex.
  2: { intros [q p] _. cbn [value fst snd]. apply value12. }
  replace (if match ep_decoded (mkSetup b t cr ep hm fm) with Some _ => true | None => false end
           then Some e0 else None) with (ep_decoded (mkSetup b t cr ep hm fm))
    by (destruct (ep_decoded _) eqn:E; [f_equal; apply He0; reflexivity | reflexivity]).
  rewrite (existsb_pointwise (fun x => value x =? 15)
             (fun x => bt && (Color_beq (piece_color (snd x)) Black
                              && Role_beq (piece_role (snd x)) King))).
  2: { intros [q p] _. cbn [value fst snd]. rewrite value15, andb_assoc. reflexivity. }
  replace (existsb (fun x => bt && _) (board_iter b))
    with (bt && existsb (fun x => Color_beq (piece_color (snd x)) Black
                                  && Role_beq (piece_role (snd x)) King) (board_iter b)).
  2: { destruct bt; [reflexivity|]. symmetry; apply existsb_false; reflexivity. }
  pose proof (black_king_present b) as Hking.
  set (kb := existsb (fun x => Color_beq (piece_color (snd x)) Black
                               && Role_beq (piece_role (snd x)) King) (board_iter b)) in *.
  clearbody kb.
  subst bt. clear Hd Hex He0 Hpawn Hep Hrooks Hpp.
  assert (Hr1 : forall v rest, 0 <= v < 2 ^ 64 ->
            leb128_read (leb128_write v ++ rest) = Ok (v, rest)) by (intros; apply leb128_roundtrip; lia).
  assert (Hr0 : forall v, 0 <= v < 2 ^ 64 -> leb128_read (leb128_write v) = Ok (v, [])).
  { intros v Hv. rewrite <- (app_nil_r (leb128_write v)). apply Hr1; exact Hv. }
  assert (Hne : forall v rest, leb128_write v ++ rest <> []).
  { intros v rest E. apply app_eq_nil in E as [E _]. exact (leb128_write_nonempty v E). }
  assert (Hply : 0 <= ply < 2 ^ 32) by (subst ply; destruct t; lia).
  assert (Hp2 : ply mod 2 = match t with White => 0 | Black => 1 end)
    by (subst ply; destruct t; Z.div_mod_to_equations; lia).
  generalize (ep_decoded (mkSetup b t cr ep hm fm)) as epd; intros epd.
  destruct t, (king_of b Black) as [k|]; cbn [Color_beq andb orb] in *; subst clocks;
    rewrite ?orb_false_r, ?orb_true_r;
    [ | | rewrite (Hking k eq_refl) | destruct kb ].
  all: destruct (Z.ltb_spec 1 ply); destruct (Z.ltb_spec 0 hm); cbn [orb]; cbv beta iota.
  all: first
    [ (* both clock fields *)
      pose proof (Hne hm (leb128_write ply)) as N1;
      destruct (leb128_write hm ++ leb128_write ply) as [|h1 t1] eqn:E1; [contradiction|];
      cbv beta iota; rewrite <- E1, Hr1 by lia; cbn [bind fst snd];
      pose proof (Hne ply []) as N2; rewrite app_nil_r in N2;
      destruct (leb128_write ply) as [|h2 t2] eqn:E2; [contradiction|];
      cbv beta iota; rewrite <- E2, Hr0 by lia;
      cbn [bind fst snd board turn castling_rights ep_square halfmoves fullmoves];
      rewrite (Z.mod_small hm), (Z.mod_small ply), Hp2 by lia;
      change (0 =? 1) with false; change (1 =? 1) with true; cbv beta iota;
      rewrite u32_checked_ok by lia; cbn [bind];
      rewrite u32_checked_ok by (Z.div_mod_to_equations; lia); cbn [bind];
      do 2 f_equal; subst ply; Z.div_mod_to_equations; lia
    | (* the halfmove clock only *)
      rewrite app_nil_r;
      destruct (leb128_write hm) as [|h1 t1] eqn:E1;
        [exfalso; exact (leb128_write_nonempty hm E1)|];
      cbv beta iota; rewrite <- E1, Hr0 by lia; cbn [bind fst snd]; cbv beta iota;
      rewrite Z.mod_small by lia; do 2 f_equal; subst ply; lia
    | (* no clock field *)
      cbn [app bind]; cbv beta iota; do 2 f_equal; subst ply; lia ].
Qed.

(** ** Position codec: output bytes and decoder invariants *)

(** Output bytes of [compress]. *)
Lemma land255_range v : 0 <= Z.land v 255 < 256.
Proof.
  change 255 with (Z.ones 8). rewrite Z.land_ones by lia.
  pose proof (Z.mod_pos_bound v (2 ^ 8) ltac:(lia)). change (2 ^ 8) with 256 in *. lia.
Qed.

Lemma to_be_bytes_range v : Forall (fun x => 0 <= x < 256) (to_be_bytes v).
Proof.
  unfold to_be_bytes. apply Forall_forall. intros x Hx.
  apply in_map_iff in Hx as [k [<- _]]. apply land255_range.
Qed.

Lemma piece_value_range p q bt ur pp : 0 <= piece_value p q bt ur pp < 16.
Proof.
  destruct p as [c r]; unfold piece_value; cbn [piece_role piece_color].
  destruct r, c; try destruct (bb_contains pp q); try destruct (bb_contains ur q);
    try destruct bt; lia.
Qed.

Lemma pack_nibbles_range (value : Square * Piece -> Z) l :
  (forall x, 0 <= value x < 16) -> Forall (fun x => 0 <= x < 256) (pack_nibbles value l).
Proof.
  intros Hv. remember (length l) as n eqn:Hn. revert l Hn.
  induction n as [n IH] using (well_founded_induction lt_wf).
  intros [|x [|y l]] Hn; cbn [pack_nibbles]; [constructor| |].
  - constructor; [pose proof (Hv x); lia | constructor].
  - constructor.
    + apply nibble_byte_range; apply Hv.
    + apply (IH (length l)); [simpl in Hn; lia | reflexivity].
Qed.

Lemma leb128_write_n_range f v : Forall (fun x => 0 <= x < 256) (leb128_write_n f v).
Proof.
  revert v; induction f as [|f IH]; intros v; cbn [leb128_write_n]; [constructor|].
  assert (H7 : 0 <= Z.land v 127 < 2 ^ 7).
  { change 127 with (Z.ones 7). rewrite Z.land_ones by lia.
    apply Z.mod_pos_bound; lia. }
  destruct (Z.shiftr v 7 =? 0).
  - constructor; [change (2 ^ 7) with 128 in H7; lia | constructor].
  - constructor; [|apply IH].
    change 256 with (2 ^ 8). apply lor_lt_pow2; [lia| |lia].
    split; [lia|]. apply (Z.lt_trans _ (2 ^ 7)); [lia|reflexivity].
Qed.

(** Every element [compress] outputs is a byte. *)
Lemma compress_bytes_range P out :
  compress P = Ok out -> Forall (fun x => 0 <= x < 256) out.
Proof.
  unfold compress, compress_board. intros H.
  destruct (pushed_to_bb P) as [pp| |]; cbn [bind] in H; try discriminate.
  destruct (u32_checked (fullmoves P - 1)) as [a| |]; cbn [bind] in H; try discriminate.
  destruct (u32_checked (a * 2)) as [c| |]; cbn [bind] in H; try discriminate.
  match type of H with context [u32_checked ?e] =>
    destruct (u32_checked e) as [d| |]; cbn [bind] in H; try discriminate end.
  apply (f_equal (fun o => match o with Ok x => x | _ => [] end)) in H.
  cbv beta iota in H. subst out.
  apply Forall_app; split; [apply Forall_app; split|apply Forall_app; split].
  - apply to_be_bytes_range.
  - apply pack_nibbles_range. intros [q p]. apply piece_value_range.
  - destruct (_ || _); [apply leb128_write_n_range | constructor].
  - destruct (_ || _); [apply leb128_write_n_range | constructor].
Qed.

(** Invariants of [decompress]. *)
Lemma decode_square_shape bytes st q st' :
  decode_square bytes st q = Ok st' ->
  exists v p ep', piece_from_value v q = Ok p /\
    ds_setup st' = mkSetup (set_piece_at (board (ds_setup st)) q p)
                     (if v =? 15 then Black else turn (ds_setup st))
                     (if (v =? 13) || (v =? 14)
                      then Z.lor (castling_rights (ds_setup st)) (bb_of q)
                      else castling_rights (ds_setup st))
                     ep' (halfmoves (ds_setup st)) (fullmoves (ds_setup st)).
Proof.
  destruct st as [setup i byte rm]. unfold decode_square. cbn [ds_setup].
  intros H.
  destruct (if rm then _ else _) as [[[byte' i'] v]| |] eqn:Hr; cbn [bind] in H; try discriminate.
  destruct (piece_from_value v q) as [p| |] eqn:Hp; cbn [bind] in H; try discriminate.
  exists v, p. revert H.
  destruct (v =? 12) eqn:E12.
  - apply Z.eqb_eq in E12; subst v.
    destruct (sq_offset q _) as [e|]; cbn [bind]; intros H; try discriminate.
    injection H as <-. exists (Some e). split; [exact Hp|reflexivity].
  - destruct ((v =? 13) || (v =? 14)) eqn:E13.
    + cbn [bind]; intros H. injection H as <-. exists (ep_square setup). split; [exact Hp|].
      cbn [ds_setup]. replace (v =? 15) with false; [reflexivity|].
      symmetry; apply Z.eqb_neq. intros ->. discriminate.
    + destruct (v =? 15); cbn [bind]; intros H; injection H as <-;
        exists (ep_square setup); (split; [exact Hp|reflexivity]).
Qed.

Lemma piece_from_value_rook v q p :
  (v =? 13) || (v =? 14) = true -> piece_from_value v q = Ok p -> piece_role p = Rook.
Proof.
  intros E H. apply orb_true_iff in E as [E|E]; apply Z.eqb_eq in E; subst v;
    injection H as <-; reflexivity.
Qed.


Lemma piece_at_set_other b q q' p :
  q' <> q -> (sq_index q < length b)%nat -> piece_at (set_piece_at b q p) q' = piece_at b q'.
Proof.
  intros Hne Hl. unfold piece_at, set_piece_at. rewrite nth_list_set by exact Hl.
  destruct (Nat.eqb_spec (sq_index q) (sq_index q')) as [E|E]; [|reflexivity].
  exfalso; apply Hne, sq_z_inj. unfold sq_z; rewrite E; reflexivity.
Qed.

Lemma piece_at_set_same b q p :
  (sq_index q < length b)%nat -> piece_at (set_piece_at b q p) q = Some p.
Proof.
  intros Hl. unfold piece_at, set_piece_at. rewrite nth_list_set by exact Hl.
  rewrite Nat.eqb_refl. reflexivity.
Qed.

Lemma decode_squares_inv bytes R : forall st st',
  NoDup R -> decode_inv (ds_setup st) R ->
  decode_squares bytes st R = Ok st' -> decode_inv (ds_setup st') [].
Proof.
  induction R as [|q R IH]; intros st st' Hnd Hinv H; cbn [decode_squares] in H.
  - injection H as <-. exact Hinv.
  - destruct (decode_square bytes st q) as [st1| |] eqn:H1; cbn [bind] in H; try discriminate.
    inversion Hnd as [|? ? Hq Hnd']; subst.
    apply (IH st1 st' Hnd'); [|exact H].
    destruct (decode_square_shape bytes st q st1 H1) as (v & p & ep' & Hp & Hs).
    destruct Hinv as (Hl & Hhm & Hfm & Hcr).
    pose proof (sq_index_lt q) as Hql.
    rewrite Hs. unfold decode_inv. cbn [board halfmoves fullmoves castling_rights].
    split; [unfold set_piece_at; rewrite list_set_length; exact Hl|].
    split; [exact Hhm|]. split; [exact Hfm|].
    intros q' Hc.
    destruct (Square_eq_dec q' q) as [->|Hne].
    + destruct ((v =? 13) || (v =? 14)) eqn:E13.
      * split; [|exact Hq]. exists p. split; [apply piece_at_set_same; lia|].
        exact (piece_from_value_rook v q p E13 Hp).
      * destruct (Hcr q Hc) as [_ Hn]. exfalso; apply Hn; left; reflexivity.
    + assert (Hc' : bb_contains (castling_rights (ds_setup st)) q' = true).
      { destruct ((v =? 13) || (v =? 14)); [|exact Hc].
        unfold bb_contains in *. rewrite Z.lor_spec, bb_of_bit in Hc.
        destruct (Z.eqb_spec (sq_z q) (sq_z q')) as [E|E];
          [exfalso; apply Hne, sq_z_inj; auto | rewrite orb_false_r in Hc; exact Hc]. }
      destruct (Hcr q' Hc') as [[p' [Hp' Hr']] Hn].
      rewrite piece_at_set_other by first [exact Hne | lia]. split; [exists p'; auto|].
      intros Hin; apply Hn; right; exact Hin.
Qed.

Lemma bb_squares_nodup bb : NoDup (bb_squares bb).
Proof. apply NoDup_filter, all_squares_nodup. Qed.

(** Whatever [decompress] returns has a 64-square board, a halfmove clock
    and a fullmove number that fit in 32 bits (the fullmove number at least
    1), and castling rights only on squares that hold a rook. *)
Lemma decompress_invariants bytes s :
  decompress bytes = Ok s ->
  length (board s) = 64%nat /\ 0 <= halfmoves s < 2 ^ 32 /\ 1 <= fullmoves s < 2 ^ 32 /\
  castling_on_rooks s = true.
Proof.
  unfold decompress. intros H.
  destruct (Nat.ltb (length bytes) 8); [discriminate|].
  destruct (decode_squares _ _ _) as [st| |] eqn:Hd; cbn [bind] in H; try discriminate.
  assert (Hinv : decode_inv (ds_setup st) []).
  { apply (decode_squares_inv bytes _ _ _ (bb_squares_nodup _)) with (2 := Hd).
    cbn [ds_setup]. unfold decode_inv, Setup_empty; cbn [board halfmoves fullmoves castling_rights].
    rewrite repeat_length. split; [reflexivity|]. split; [reflexivity|]. split; [reflexivity|].
    intros q Hq; unfold bb_contains in Hq; rewrite Z.testbit_0_l in Hq; discriminate. }
  destruct Hinv as (Hl & Hhm & Hfm & Hcr).
  assert (Hrooks : forall s', board s' = board (ds_setup st) ->
                     castling_rights s' = castling_rights (ds_setup st) ->
                     castling_on_rooks s' = true).
  { intros s' Hb Hc. unfold castling_on_rooks. rewrite Hb, Hc.
    apply forallb_forall. intros q _.
    destruct (bb_contains _ q) eqn:E; [|reflexivity].
    destruct (Hcr q E) as [[p [Hp Hr]] _]. rewrite Hp, Hr. reflexivity. }
  set (setup := ds_setup st) in *. clearbody setup.
  destruct (skipn (ds_i st) bytes) as [|b0 rest0] eqn:Hrest; cbn [bind] in H.
  - cbv beta iota in H. injection H as <-.
    split; [exact Hl|]. split; [rewrite Hhm; lia|]. split; [rewrite Hfm; lia|].
    apply Hrooks; reflexivity.
  - destruct (leb128_read (b0 :: rest0)) as [[v1 rest1]| |]; cbn [bind fst snd] in H;
      try discriminate.
    assert (Hm : forall z, 0 <= z mod 2 ^ 32 < 2 ^ 32) by (intros; apply Z.mod_pos_bound; lia).
    destruct rest1 as [|b1 rest1]; cbv beta iota in H.
    + injection H as <-. cbn [board halfmoves fullmoves].
      split; [exact Hl|]. split; [apply Hm|]. split; [rewrite Hfm; lia|].
      apply Hrooks; reflexivity.
    + destruct (leb128_read (b1 :: rest1)) as [[v2 rest2]| |]; cbn [bind fst snd] in H;
        try discriminate.
      match type of H with context [u32_checked ?e] =>
        destruct (u32_checked e) as [d| |] eqn:Hd1; cbn [bind] in H; try discriminate end.
      destruct (u32_checked (d / 2 + 1)) as [f| |] eqn:Hf; cbn [bind] in H; try discriminate.
      apply u32_checked_inv in Hd1 as [-> Hd1]. apply u32_checked_inv in Hf as [-> Hf].
      match type of Hd1 with 0 <= ?x < _ => set (X := x) in *; clearbody X end.
      injection H as <-. cbn [board halfmoves fullmoves castling_rights].
      split; [exact Hl|]. split; [apply Hm|].
      split; [pose proof (Z.div_pos X 2 ltac:(lia) ltac:(lia)); lia|].
      apply Hrooks; reflexivity.
Qed.

(** Every piece gets a four-bit code, and [piece_from_value] gives the
    piece back from its code and square, provided a pawn marked as just
    pushed stands on the half of the board its color pushes to. *)
Theorem piece_value_roundtrip p q bt ur pp :
  (bb_contains pp q = true -> piece_role p = Pawn ->
   piece_color p = if bb_contains SOUTH q then White else Black) ->
  0 <= piece_value p q bt ur pp < 16 /\
  piece_from_value (piece_value p q bt ur pp) q = Ok p.
Proof.
  intros Hpawn. destruct (piece_value_code p q bt ur pp Hpawn) as [Hr Hd].
  split; [exact Hr | exact Hd].
Qed.

(** ** The theorems at concrete inputs *)

Lemma toy_legal_moves_from p m : In m (toy_legal_moves p) -> move_from m <> None.
Proof. simpl; intros [<-|[<-|[<-|[]]]]; discriminate. Qed.

Lemma toy_legal_moves_bound p : (length (toy_legal_moves p) <= 256)%nat.
Proof. simpl; lia. Qed.

Lemma toy_legal_moves_nodup p : NoDup (toy_legal_moves p).
Proof.
  simpl. repeat constructor; simpl;
    intros H; repeat destruct H as [H|H]; try exact H; discriminate.
Qed.

Lemma move_stream_roundtrip_witness :
  legal_seq Setup toy_legal_moves toy_play start_setup [e2e4; e7e5] /\
  exists out,
    compress_from_position Setup turn setup_their_pawns toy_legal_moves toy_play
      [e2e4; e7e5] start_setup = Ok out /\
    decompress_from_position Setup turn setup_their_pawns toy_legal_moves toy_play
      out 2 start_setup = Ok [e2e4; e7e5].
Proof.
  assert (Hseq : legal_seq Setup toy_legal_moves toy_play start_setup [e2e4; e7e5]).
  { econstructor; [simpl; auto | reflexivity |].
    econstructor; [simpl; auto | reflexivity |].
    constructor. }
  split; [exact Hseq|].
  exact (move_stream_roundtrip Setup turn setup_their_pawns toy_legal_moves toy_play
           toy_legal_moves_from toy_legal_moves_bound start_setup [e2e4; e7e5] Hseq).
Defined.

Lemma write_move_spec_witness :
  exists l, sorted_moves Setup turn setup_their_pawns toy_legal_moves start_setup = Ok l /\
    (write_move Setup turn setup_their_pawns toy_legal_moves g1f3 start_setup []
     = Err MoveNotFound <-> ~ In g1f3 l) /\
    (forall i, nth_error l i = Some g1f3 ->
       write_move Setup turn setup_their_pawns toy_legal_moves g1f3 start_setup []
       = Ok ([] ++ code_bits (Z.of_nat i))).
Proof.
  exact (write_move_spec Setup turn setup_their_pawns toy_legal_moves
           toy_legal_moves_from toy_legal_moves_bound toy_legal_moves_nodup
           start_setup g1f3 []).
Defined.

Lemma read_move_index_bound_witness :
  (length (toy_legal_moves start_setup) < 256)%nat /\
  exists bs, read_move Setup turn setup_their_pawns toy_legal_moves bs start_setup = Panic.
Proof.
  assert (Hlen : (length (toy_legal_moves start_setup) < 256)%nat) by (simpl; lia).
  split; [exact Hlen|].
  exact (proj2 (read_move_index_bound Setup turn setup_their_pawns toy_legal_moves
                  toy_legal_moves_from toy_legal_moves_bound)
           start_setup Hlen).
Defined.

Lemma move_score_range_witness :
  move_from e2e4 = Some (sq 12) /\
  exists mv score,
    move_value Setup turn start_setup e2e4 = Ok mv /\ -100 <= mv <= 100 /\ 412 <= 512 + mv /\
    move_score Setup turn setup_their_pawns e2e4 start_setup = Ok (- score) /\
    0 <= 412 * 2 ^ 12 <= score /\ score < 2 ^ 31 /\ - 2 ^ 31 <= - score.
Proof.
  assert (Hf : move_from e2e4 = Some (sq 12)) by reflexivity.
  split; [exact Hf|].
  exact (move_score_range Setup turn setup_their_pawns start_setup e2e4 (sq 12) Hf).
Defined.

Lemma move_ordering_key_witness :
  move_score Setup turn setup_their_pawns e2e4 start_setup
  = Ok (spec_sort_key Setup turn setup_their_pawns start_setup e2e4) /\
  exists l, sorted_moves Setup turn setup_their_pawns toy_legal_moves start_setup = Ok l /\
    Permutation (toy_legal_moves start_setup) l /\
    Sorted (fun a b => spec_sort_key Setup turn setup_their_pawns start_setup a
                       <= spec_sort_key Setup turn setup_their_pawns start_setup b) l.
Proof.
  destruct (move_ordering_key Setup turn setup_their_pawns toy_legal_moves) as [H1 H2].
  split.
  - apply (H1 start_setup e2e4 (sq 12)); reflexivity.
  - apply H2. intros m Hm. apply (toy_legal_moves_from start_setup m Hm).
Defined.

Lemma compress_clock_fields_witness :
  compress start_setup
  = Ok [255; 255; 0; 0; 0; 0; 255; 255; 45; 132; 74; 210; 0; 0; 0; 0;
        17; 17; 17; 17; 62; 149; 91; 227] /\
  exists body f1 f2,
    compress_board start_setup = Ok body /\
    [255; 255; 0; 0; 0; 0; 255; 255; 45; 132; 74; 210; 0; 0; 0; 0;
     17; 17; 17; 17; 62; 149; 91; 227] = body ++ f1 ++ f2 /\
    ((0 < halfmoves start_setup \/ 1 < 0 \/
      turn start_setup = Black /\ length (kings_of (board start_setup) Black) <> 1%nat)
       /\ f1 = leb128_write (halfmoves start_setup)
     \/ ~ (0 < halfmoves start_setup \/ 1 < 0 \/
           turn start_setup = Black /\ length (kings_of (board start_setup) Black) <> 1%nat)
       /\ f1 = []) /\
    ((1 < 0 \/ turn start_setup = Black /\ length (kings_of (board start_setup) Black) <> 1%nat)
       /\ f2 = leb128_write 0
     \/ ~ (1 < 0 \/ turn start_setup = Black /\ length (kings_of (board start_setup) Black) <> 1%nat)
       /\ f2 = []).
Proof.
  assert (Hc : compress start_setup
               = Ok [255; 255; 0; 0; 0; 0; 255; 255; 45; 132; 74; 210; 0; 0; 0; 0;
                     17; 17; 17; 17; 62; 149; 91; 227]) by (vm_compute; reflexivity).
  split; [exact Hc|].
  exact (compress_clock_fields start_setup _ Hc).
Defined.

Lemma compress_ep_without_pawn_witness :
  ep_square ep_no_pawn_setup = Some (sq 20) /\
  sq_offset (sq 20) 8 = Some (sq 28) /\
  (forall p, piece_at (board ep_no_pawn_setup) (sq 28) = Some p -> piece_role p <> Pawn) /\
  compress ep_no_pawn_setup
  = compress (mkSetup (board ep_no_pawn_setup) Black 0 None 0 1).
Proof.
  assert (He : ep_square ep_no_pawn_setup = Some (sq 20)) by reflexivity.
  assert (Hs : sq_offset (sq 20) 8 = Some (sq 28)) by (vm_compute; reflexivity).
  assert (Hp : forall p, piece_at (board ep_no_pawn_setup) (sq 28) = Some p ->
                         piece_role p <> Pawn) by (vm_compute; discriminate).
  split; [exact He|]. split; [exact Hs|]. split; [exact Hp|].
  exact (compress_ep_without_pawn ep_no_pawn_setup (sq 20) (sq 28) He Hs Hp).
Defined.

Lemma position_roundtrip_witness :
  length (board e4_setup) = 64%nat /\ 0 <= halfmoves e4_setup < 2 ^ 32 /\
  1 <= fullmoves e4_setup <= 2 ^ 31 /\ 0 <= castling_rights e4_setup < 2 ^ 64 /\
  castling_on_rooks e4_setup = true /\ ep_consistent e4_setup = true /\
  exists out, compress e4_setup = Ok out /\
    decompress out = Ok (mkSetup (board e4_setup) Black (castling_rights e4_setup)
                           (Some (sq 20)) 3 7).
Proof.
  assert (H1 : length (board e4_setup) = 64%nat) by (vm_compute; reflexivity).
  assert (H2 : 0 <= halfmoves e4_setup < 2 ^ 32) by (cbn [e4_setup halfmoves]; lia).
  assert (H3 : 1 <= fullmoves e4_setup <= 2 ^ 31) by (cbn [e4_setup fullmoves]; lia).
  assert (H4 : 0 <= castling_rights e4_setup < 2 ^ 64)
    by (split; [apply Z.leb_le | apply Z.ltb_lt]; vm_compute; reflexivity).
  assert (H5 : castling_on_rooks e4_setup = true) by (vm_compute; reflexivity).
  assert (H6 : ep_consistent e4_setup = true) by (vm_compute; reflexivity).
  do 6 (split; [assumption|]).
  exact (position_roundtrip e4_setup H1 H2 H3 H4 H5 H6).
Defined.

Lemma piece_value_roundtrip_witness :
  (bb_contains (bb_of (sq 28)) (sq 28) = true -> piece_role (mkPiece White Pawn) = Pawn ->
   piece_color (mkPiece White Pawn) = if bb_contains SOUTH (sq 28) then White else Black) /\
  0 <= piece_value (mkPiece White Pawn) (sq 28) false 0 (bb_of (sq 28)) < 16 /\
  piece_from_value (piece_value (mkPiece White Pawn) (sq 28) false 0 (bb_of (sq 28))) (sq 28)
  = Ok (mkPiece White Pawn).
Proof.
  assert (H : bb_contains (bb_of (sq 28)) (sq 28) = true -> piece_role (mkPiece White Pawn) = Pawn ->
              piece_color (mkPiece White Pawn) = if bb_contains SOUTH (sq 28) then White else Black)
    by (intros _ _; vm_compute; reflexivity).
  split; [exact H|].
  exact (piece_value_roundtrip (mkPiece White Pawn) (sq 28) false 0 (bb_of (sq 28)) H).
Defined.

Lemma decompress_invariants_witness :
  decompress [255; 255; 0; 0; 0; 0; 255; 255; 45; 132; 74; 210; 0; 0; 0; 0;
              17; 17; 17; 17; 62; 149; 91; 227] = Ok start_setup /\
  length (board start_setup) = 64%nat /\ 0 <= halfmoves start_setup < 2 ^ 32 /\
  1 <= fullmoves start_setup < 2 ^ 32 /\ castling_on_rooks start_setup = true.
Proof.
  assert (H : decompress [255; 255; 0; 0; 0; 0; 255; 255; 45; 132; 74; 210; 0; 0; 0; 0;
                          17; 17; 17; 17; 62; 149; 91; 227] = Ok start_setup)
    by (vm_compute; reflexivity).
  split; [exact H|].
  exact (decompress_invariants _ _ H).
Defined.

Lemma compress_bytes_range_witness :
  compress e4_setup = Ok [255; 255; 0; 0; 16; 0; 239; 255; 45; 132; 74; 210; 0; 0; 0; 192;
                          17; 17; 17; 17; 62; 149; 95; 227; 3; 13] /\
  Forall (fun x => 0 <= x < 256)
    [255; 255; 0; 0; 16; 0; 239; 255; 45; 132; 74; 210; 0; 0; 0; 192;
     17; 17; 17; 17; 62; 149; 95; 227; 3; 13].
Proof.
  assert (H : compress e4_setup
              = Ok [255; 255; 0; 0; 16; 0; 239; 255; 45; 132; 74; 210; 0; 0; 0; 192;
                    17; 17; 17; 17; 62; 149; 95; 227; 3; 13]) by (vm_compute; reflexivity).
  split; [exact H|].
  exact (compress_bytes_range _ _ H).
Defined.

Lemma sorted_moves_lex_order_witness :
  sorted_moves Setup turn setup_their_pawns toy_legal_moves start_setup
  = Ok [e2e4; g1f3; e7e5] /\
  lex_gt (score_fields Setup turn setup_their_pawns start_setup e2e4)
         (score_fields Setup turn setup_their_pawns start_setup e7e5) = true /\
  (0 < 2)%nat.
Proof.
  assert (Hs : sorted_moves Setup turn setup_their_pawns toy_legal_moves start_setup
               = Ok [e2e4; g1f3; e7e5]) by (vm_compute; reflexivity).
  assert (Hl : lex_gt (score_fields Setup turn setup_their_pawns start_setup e2e4)
                      (score_fields Setup turn setup_their_pawns start_setup e7e5) = true)
    by (vm_compute; reflexivity).
  split; [exact Hs|]. split; [exact Hl|].
  exact (sorted_moves_lex_order Setup turn setup_their_pawns toy_legal_moves start_setup
           [e2e4; g1f3; e7e5] 0 2 e2e4 e7e5 (toy_legal_moves_from start_setup) Hs
           eq_refl eq_refl Hl).
Defined.

Lemma decompress_from_position_prefix_witness :
  legal_seq Setup toy_legal_moves toy_play start_setup [e2e4; e7e5] /\
  compress_from_position Setup turn setup_their_pawns toy_legal_moves toy_play
    [e2e4; e7e5] start_setup = Ok [0] /\
  decompress_from_position Setup turn setup_their_pawns toy_legal_moves toy_play
    [0] 1 start_setup = Ok [e2e4].
Proof.
  assert (Hseq : legal_seq Setup toy_legal_moves toy_play start_setup [e2e4; e7e5]).
  { econstructor; [simpl; auto | reflexivity |].
    econstructor; [simpl; auto | reflexivity |].
    constructor. }
  assert (Hc : compress_from_position Setup turn setup_their_pawns toy_legal_moves toy_play
                 [e2e4; e7e5] start_setup = Ok [0]) by (vm_compute; reflexivity).
  split; [exact Hseq|]. split; [exact Hc|].
  exact (decompress_from_position_prefix Setup turn setup_their_pawns toy_legal_moves toy_play
           toy_legal_moves_from toy_legal_moves_bound start_setup [e2e4; e7e5] [0] 1
           Hseq Hc ltac:(cbn; lia)).
Defined.

Lemma compress_from_position_first_illegal_witness :
  legal_path Setup toy_legal_moves toy_play start_setup [e2e4]
    (mkSetup start_board Black (castling_rights start_setup) None 0 1) /\
  ~ In d1h5 (toy_legal_moves (mkSetup start_board Black (castling_rights start_setup) None 0 1)) /\
  compress_from_position Setup turn setup_their_pawns toy_legal_moves toy_play
    ([e2e4] ++ d1h5 :: [e7e5]) start_setup = Err MoveNotFound.
Proof.
  assert (Hp : legal_path Setup toy_legal_moves toy_play start_setup [e2e4]
                 (mkSetup start_board Black (castling_rights start_setup) None 0 1)).
  { econstructor; [simpl; auto | reflexivity | constructor]. }
  assert (Hn : ~ In d1h5 (toy_legal_moves
                            (mkSetup start_board Black (castling_rights start_setup) None 0 1))).
  { simpl. intros H; repeat destruct H as [H|H]; try exact H; discriminate. }
  split; [exact Hp|]. split; [exact Hn|].
  exact (proj1 (compress_from_position_first_illegal Setup turn setup_their_pawns
                  toy_legal_moves toy_play toy_legal_moves_from toy_legal_moves_bound
                  start_setup [e2e4] _ d1h5 [e7e5] Hp) Hn).
Defined.

Lemma decompress_from_position_padding_witness :
  legal_path Setup toy_legal_moves toy_play start_setup [e2e4]
    (mkSetup start_board Black (castling_rights start_setup) None 0 1) /\
  compress_loop Setup turn setup_their_pawns toy_legal_moves toy_play [e2e4] start_setup []
  = Ok [false; false] /\
  (1 <= length [false; false] mod 8 <= 6)%nat /\
  sorted_moves Setup turn setup_their_pawns toy_legal_moves
    (mkSetup start_board Black (castling_rights start_setup) None 0 1)
  = Ok [e7e5; e2e4; g1f3] /\
  toy_play (mkSetup start_board Black (castling_rights start_setup) None 0 1) e7e5
  = Some (mkSetup start_board White (castling_rights start_setup) None 0 1) /\
  compress_from_position Setup turn setup_their_pawns toy_legal_moves toy_play
    [e2e4] start_setup = Ok [0] /\
  decompress_from_position Setup turn setup_their_pawns toy_legal_moves toy_play
    [0] (Z.of_nat (length [e2e4]) + 1) start_setup = Ok ([e2e4] ++ [e7e5]).
Proof.
  assert (Hp : legal_path Setup toy_legal_moves toy_play start_setup [e2e4]
                 (mkSetup start_board Black (castling_rights start_setup) None 0 1)).
  { econstructor; [simpl; auto | reflexivity | constructor]. }
  assert (Hb : compress_loop Setup turn setup_their_pawns toy_legal_moves toy_play [e2e4]
                 start_setup [] = Ok [false; false]) by (vm_compute; reflexivity).
  assert (Hm : (1 <= length [false; false] mod 8 <= 6)%nat) by (cbn; lia).
  assert (Hs : sorted_moves Setup turn setup_their_pawns toy_legal_moves
                 (mkSetup start_board Black (castling_rights start_setup) None 0 1)
               = Ok [e7e5; e2e4; g1f3]) by (vm_compute; reflexivity).
  assert (Hq : toy_play (mkSetup start_board Black (castling_rights start_setup) None 0 1) e7e5
               = Some (mkSetup start_board White (castling_rights start_setup) None 0 1))
    by reflexivity.
  assert (Hc : compress_from_position Setup turn setup_their_pawns toy_legal_moves toy_play
                 [e2e4] start_setup = Ok [0]) by (vm_compute; reflexivity).
  do 6 (split; [assumption|]).
  exact (decompress_from_position_padding Setup turn setup_their_pawns toy_legal_moves
           toy_play toy_legal_moves_from toy_legal_moves_bound start_setup [e2e4] _ _
           [false; false] [0] e7e5 [e2e4; g1f3] Hp Hb Hm Hs Hq Hc).
Defined.
